(** * The fixed-window rate limiter: [rateLimit] (middleware part of
      [server/src/utils/monitoring.js], lines 710-738)

    [rateLimit(windowMs, max)] creates one [Map] from client key to an object
    [{ count, resetTime }] and returns a middleware closed over it.  For each
    request the middleware derives the key
    ([req.ip || req.connection.remoteAddress]), reads the clock once
    ([Date.now()]) and then either calls [next()] or answers 429.

    The embedding takes the key and the clock reading as the inputs of
    [check], models the [Map] as a [gmap string WindowCounter] threaded
    through the calls, and numbers as [Z] (counts and millisecond timestamps
    stay far below 2^53, where JavaScript numbers are exact integers).
    Reading a property of [undefined] is the one operation of the body that
    can raise, so [check] lives in a small error monad.

    Further modules embed the code around the limiter, from the same file:
    [Monitor] (the request-rate monitor [rateLimitMonitor]), [Helpers]
    ([sanitizeInput], [isValidObjectId], [getPaginationOptions]),
    [Middleware] ([authenticate], [authorize], [errorHandler] and
    [formatErrorResponse]) and [Security] ([securityMonitor] with its
    regular expressions). *)

From Stdlib Require Import ZArith Lia Sorted Ascii.
From stdpp Require Import gmap strings list fin_maps sorting.

Local Open Scope Z_scope.

(** ** Data model *)

(** The object literal [{ count: ..., resetTime: ... }] stored per key. *)
Record WindowCounter := mkCounter { count : Z; resetTime : Z }.

Global Instance WindowCounter_eq_dec : EqDecision WindowCounter.
Proof. solve_decision. Defined.

(** [next()] is ADMIT, [res.status(429).json(...)] is REJECT. *)
Inductive Verdict := ADMIT | REJECT.

Global Instance Verdict_eq_dec : EqDecision Verdict.
Proof. solve_decision. Defined.

(** What a JavaScript call can do besides returning. *)
Inductive JsError := TypeError.

Inductive result (A : Type) :=
| Ok (a : A)
| Throw (e : JsError).
Arguments Ok {A} a.
Arguments Throw {A} e.

Global Instance result_ret : MRet result := λ A a, Ok a.

Global Instance result_bind : MBind result := λ A B f r,
  match r with
  | Ok a => f a
  | Throw e => Throw e
  end.

(** Reading a property of the value returned by [Map.prototype.get]:
    [undefined.resetTime] raises a [TypeError]. *)
Definition get_object {A} (o : option A) : result A :=
  match o with
  | Some a => Ok a
  | None => Throw TypeError
  end.

(** ** The limiter *)

Module RateLimiter.

(** Default arguments of [rateLimit]. *)
Definition default_windowMs : Z := 15 * 60 * 1000.
Definition default_max : Z := 100.

(** [const requests = new Map()]. *)
Definition new_requests : gmap string WindowCounter := ∅.

Section Configured.

Variables windowMs max : Z.

(** The body of the middleware returned by [rateLimit(windowMs, max)], for
    the request whose key is [key], evaluated when the clock reads [now]. *)
Definition check (key : string) (now : Z) (requests : gmap string WindowCounter)
  : result (Verdict * gmap string WindowCounter) :=
  if negb (bool_decide (is_Some (requests !! key))) then
    Ok (ADMIT, <[key := mkCounter 1 (now + windowMs)]> requests)
  else
    requestData ← get_object (requests !! key);
    if now >? resetTime requestData then
      Ok (ADMIT, <[key := mkCounter 1 (now + windowMs)]> requests)
    else if count requestData >=? max then
      Ok (REJECT, requests)
    else
      Ok (ADMIT, <[key := mkCounter (count requestData + 1) (resetTime requestData)]> requests).

(** One handled request, as the host observes it. *)
Record Event := mkEvent { ev_key : string; ev_time : Z; ev_verdict : Verdict }.

Definition admitted (key : string) (now : Z) : Event := mkEvent key now ADMIT.

(** The host feeds requests to the same middleware instance one after the
    other; every request sees the map as the previous one left it. *)
Fixpoint run (requests : gmap string WindowCounter) (calls : list (string * Z))
  : result (list Event * gmap string WindowCounter) :=
  match calls with
  | [] => Ok ([], requests)
  | (key, now) :: rest =>
      '(v, requests1) ← check key now requests;
      '(evs, requests2) ← run requests1 rest;
      Ok (mkEvent key now v :: evs, requests2)
  end.

(** The effect of one call on the counter of its own key, read off [check]:
    the verdict and the counter stored under the key afterwards. *)
Definition window_step (o : option WindowCounter) (now : Z) : Verdict * WindowCounter :=
  match o with
  | None => (ADMIT, mkCounter 1 (now + windowMs))
  | Some c =>
      if now >? resetTime c then (ADMIT, mkCounter 1 (now + windowMs))
      else if count c >=? max then (REJECT, c)
      else (ADMIT, mkCounter (count c + 1) (resetTime c))
  end.

(** States the closure's map can be in: empty at creation, then whatever
    the handled requests made of it. *)
Inductive reachable : gmap string WindowCounter → Prop :=
| reachable_new : reachable new_requests
| reachable_check key now requests v requests' :
    reachable requests →
    check key now requests = Ok (v, requests') →
    reachable requests'.

(** *** Observations on a log of handled requests *)

Definition verdicts (evs : list Event) : list Verdict := ev_verdict <$> evs.

Definition events_of (key : string) (evs : list Event) : list Event :=
  filter (λ e, ev_key e = key) evs.

(** Requests of [key] let through at a time in the closed interval [a, b]. *)
Definition admitted_in (key : string) (a b : Z) (evs : list Event) : Z :=
  Z.of_nat (length (filter
    (λ e, ev_key e = key ∧ ev_verdict e = ADMIT ∧ a ≤ ev_time e ≤ b) evs)).

(** An upper bound on what a key can still be granted within an interval
    of length [windowMs] that has begun, given its counter: the rest of the
    running window and one more window. *)
Definition interval_budget (o : option WindowCounter) : Z :=
  match o with
  | None => max
  | Some c => Z.max 0 (max - count c) + max
  end.

(** A request opens a window when its key has no counter yet or the stored
    window is over. *)
Definition opens_window (requests : gmap string WindowCounter)
    (key : string) (now : Z) : Prop :=
  match requests !! key with
  | None => True
  | Some c => resetTime c < now
  end.

End Configured.

(** *** A history that crowds the seam between two windows

    One request at time 0 opens a window that lasts through [windowMs]; the
    rest of its quota is used at time [windowMs], and a full quota of the next
    window right after, at [windowMs + 1]. *)
Definition seam_times (windowMs max : Z) : list Z :=
  0 :: replicate (Z.to_nat (max - 1)) windowMs ++
       replicate (Z.to_nat max) (windowMs + 1).

Definition seam_calls (windowMs max : Z) (key : string) : list (string * Z) :=
  (λ t, (key, t)) <$> seam_times windowMs max.

(** *** The scenario of the specification: one second, two requests *)

Definition scenario_calls : list (string * Z) :=
  [("A"%string, 0); ("A"%string, 100); ("A"%string, 200)].

(** The map after the three scenario requests. *)
Definition scenario_requests : gmap string WindowCounter :=
  match run 1000 2 new_requests scenario_calls with
  | Ok (_, requests) => requests
  | Throw _ => new_requests
  end.

End RateLimiter.

(** ** The request-rate monitor: [rateLimitMonitor]
      ([server/src/utils/monitoring.js], lines 133-161)

    A second, independent mechanism: it keeps in [global.rateLimitStore] the
    timestamps of the recent requests of every address, reports through
    [logger.logSecurity] when an address has 100 of them in 15 minutes, and
    always calls [next()]. *)

Module Monitor.

Definition windowMs : Z := 15 * 60 * 1000.
Definition maxRequests : Z := 100.

(** The call [logger.logSecurity('Rate Limit Exceeded', { ip, requests,
    window: '15 minutes', severity: 'medium' })]; its two variable fields. *)
Record Alert := mkAlert { alert_ip : string; alert_requests : Z }.

(** The middleware for a request of address [key] when the clock reads
    [now].  [rateLimitStore] is the global: [None] while it is still
    [undefined].  The result is the report made, if any, and the global
    afterwards. *)
Definition rateLimitMonitor (key : string) (now : Z)
    (rateLimitStore : option (gmap string (list Z)))
  : option Alert * option (gmap string (list Z)) :=
  let store := match rateLimitStore with
               | None => ∅
               | Some m => m
               end in
  let requestLog := default [] (store !! key) in
  let validRequests := filter (λ time, now - time < windowMs) requestLog in
  let alert := if Z.of_nat (length validRequests) >=? maxRequests
               then Some (mkAlert key (Z.of_nat (length validRequests)))
               else None in
  (alert, Some (<[key := validRequests ++ [now]]> store)).

(** Requests handled one after the other on the same global. *)
Fixpoint run (rateLimitStore : option (gmap string (list Z)))
    (calls : list (string * Z))
  : list (option Alert) * option (gmap string (list Z)) :=
  match calls with
  | [] => ([], rateLimitStore)
  | (key, now) :: rest =>
      let '(alert, store1) := rateLimitMonitor key now rateLimitStore in
      let '(alerts, store2) := run store1 rest in
      (alert :: alerts, store2)
  end.

(** The timestamps kept for [key]. *)
Definition log_of (key : string) (rateLimitStore : option (gmap string (list Z)))
  : list Z :=
  match rateLimitStore with
  | None => []
  | Some m => default [] (m !! key)
  end.

(** The times of the requests of [key] in a history. *)
Definition times_of (key : string) (calls : list (string * Z)) : list Z :=
  (filter (λ c : string * Z, c.1 = key) calls).*2.

(** Those of them less than [windowMs] before [now]. *)
Definition recent (key : string) (now : Z) (calls : list (string * Z)) : list Z :=
  filter (λ time, now - time < windowMs) (times_of key calls).

End Monitor.

(** ** Utility functions: [server/src/utils/helpers.js]
      (lines 252-408 of [server/src/utils/monitoring.js])

    JavaScript strings are lists of characters here, written [chars "..."]. *)

Module Helpers.

Abbreviation chars := String.list_ascii_of_string.

(** The kinds of value a caller can pass; numbers are the integer ones. *)
Inductive JsValue :=
| JsUndefined
| JsNull
| JsBoolean (b : bool)
| JsNumber (n : Z)
| JsString (s : list ascii)
| JsObject.

(** [!v] *)
Definition falsy (v : JsValue) : bool :=
  match v with
  | JsUndefined | JsNull => true
  | JsBoolean b => negb b
  | JsNumber n => n =? 0
  | JsString s => bool_decide (s = [])
  | JsObject => false
  end.

(** [typeof v === 'string'] *)
Definition is_string (v : JsValue) : bool :=
  match v with
  | JsString _ => true
  | _ => false
  end.

(** [s.replace(/c/g, by)] for a pattern of one literal character. *)
Fixpoint replace_all (c : ascii) (by_ : list ascii) (s : list ascii) : list ascii :=
  match s with
  | [] => []
  | a :: rest =>
      if Ascii.eqb a c then by_ ++ replace_all c by_ rest
      else a :: replace_all c by_ rest
  end.

Definition double_quote : ascii := "034"%char.

Definition sanitizeInput (input : JsValue) : list ascii :=
  if falsy input || negb (is_string input) then []
  else
    match input with
    | JsString s =>
        replace_all "/" (chars "&#x2F;")
          (replace_all "'" (chars "&#x27;")
             (replace_all double_quote (chars "&quot;")
                (replace_all ">" (chars "&gt;")
                   (replace_all "<" (chars "&lt;") s))))
    | _ => []
    end.

(** The characters [sanitizeInput] replaces. *)
Definition special (a : ascii) : bool :=
  bool_decide (a ∈ ["<"%char; ">"%char; double_quote; "'"%char; "/"%char]).

(** The entity written for one character by the five replacements. *)
Definition entity (a : ascii) : list ascii :=
  if Ascii.eqb a "<" then chars "&lt;"
  else if Ascii.eqb a ">" then chars "&gt;"
  else if Ascii.eqb a double_quote then chars "&quot;"
  else if Ascii.eqb a "'" then chars "&#x27;"
  else if Ascii.eqb a "/" then chars "&#x2F;"
  else [a].

(** [/^[0-9a-fA-F]{24}$/.test(id)] on strings. *)
Definition is_hex_digit (a : ascii) : bool :=
  let n := Ascii.nat_of_ascii a in
  ((48 <=? n) && (n <=? 57) || (97 <=? n) && (n <=? 102) ||
   (65 <=? n) && (n <=? 70))%nat.

Definition isValidObjectId (id : JsValue) : bool :=
  if falsy id || negb (is_string id) then false
  else
    match id with
    | JsString s => (length s =? 24)%nat && forallb is_hex_digit s
    | _ => false
    end.

(** [x || d] where [x] is what [parseInt] returned: an integer (in the
    range where JavaScript numbers are exact) or, as [None], NaN. *)
Definition or_default (x : option Z) (d : Z) : Z :=
  match x with
  | Some n => if n =? 0 then d else n
  | None => d
  end.

Record Pagination := mkPagination { page : Z; limit : Z; skip : Z }.

(** [getPaginationOptions(page, limit)], as a function of [parseInt(page)]
    and [parseInt(limit)] ([parseInt] is the engine's; an omitted argument
    takes its default, 1 or 10, which [parseInt] returns unchanged). *)
Definition getPaginationOptions (parsedPage parsedLimit : option Z) : Pagination :=
  let pageNum := Z.max 1 (or_default parsedPage 1) in
  let limitNum := Z.min 100 (Z.max 1 (or_default parsedLimit 10)) in
  let skip := (pageNum - 1) * limitNum in
  mkPagination pageNum limitNum skip.

End Helpers.

(** ** Authentication, authorization and error middleware
      ([server/src/middleware/auth.js], lines 572-706 of
      [server/src/utils/monitoring.js]) *)

Module Middleware.

Import Helpers.

(** The object built by [formatErrorResponse(message, code, details)];
    [success] is always [false] and [timestamp] is the clock's
    [new Date().toISOString()] at the call. *)
Record ErrorResponse := mkErrorResponse {
  success : bool;
  error_message : string;
  error_code : string;
  error_details : list string;
  error_timestamp : string
}.

(** Omitted arguments ([None]) take the defaults ['GENERIC_ERROR'] and [[]]. *)
Definition formatErrorResponse (timestamp : string) (message : string)
    (code : option string) (details : option (list string)) : ErrorResponse :=
  mkErrorResponse false message (default "GENERIC_ERROR"%string code)
    (default [] details) timestamp.

(** What a middleware did: it called [next()] (with [req.user] as it then
    is) or it answered with [res.status(status).json(body)]. *)
Inductive Outcome (User : Type) :=
| Next (user : option User)
| Respond (status : Z) (body : ErrorResponse).
Arguments Next {User} user.
Arguments Respond {User} status body.

(** The decoded token payload, as [generateJWTPayload] builds it; [role] may
    be missing. *)
Record Payload := mkPayload {
  payload_id : string;
  payload_email : string;
  payload_role : option string
}.

(** [s] without the prefix [p], when it has it. *)
Fixpoint strip_prefix (p s : list ascii) : option (list ascii) :=
  match p, s with
  | [], _ => Some s
  | _ :: _, [] => None
  | a :: p', b :: s' => if Ascii.eqb a b then strip_prefix p' s' else None
  end.

(** [s.replace(pat, by)] with a string pattern: the first occurrence only. *)
Fixpoint replace_first (pat by_ s : list ascii) : list ascii :=
  match strip_prefix pat s with
  | Some rest => by_ ++ rest
  | None =>
      match s with
      | [] => []
      | a :: s' => a :: replace_first pat by_ s'
      end
  end.

Section Auth.

(** [jwt.verify(token, secret)]: the payload, or [None] when it throws. *)
Variable verify : list ascii → option Payload.

(** The clock reading used for the timestamps of the answers. *)
Variable timestamp : string.

(** [req.header('Authorization')?.replace('Bearer ', '')] *)
Definition bearer_token (authorization : option (list ascii)) : option (list ascii) :=
  replace_first (chars "Bearer ") [] <$> authorization.

(** [authenticate], given the Authorization header of the request ([None]
    when there is none).  The handlers after [next()] are taken to return
    normally, so the [catch] only sees what [jwt.verify] throws. *)
Definition authenticate (authorization : option (list ascii)) : Outcome Payload :=
  match bearer_token authorization with
  | None | Some [] =>
      Respond 401 (formatErrorResponse timestamp
                     "Access denied. No token provided." (Some "NO_TOKEN"%string) None)
  | Some token =>
      match verify token with
      | Some decoded => Next (Some decoded)
      | None =>
          Respond 401 (formatErrorResponse timestamp
                         "Invalid token." (Some "INVALID_TOKEN"%string) None)
      end
  end.

(** The middleware returned by [authorize(...roles)], on [req.user]. *)
Definition authorize (roles : list string) (user : option Payload) : Outcome Payload :=
  match user with
  | None =>
      Respond 401 (formatErrorResponse timestamp
                     "Access denied. User not authenticated."
                     (Some "NOT_AUTHENTICATED"%string) None)
  | Some u =>
      if negb (match payload_role u with
               | Some r => bool_decide (r ∈ roles)
               | None => false
               end)
      then Respond 403 (formatErrorResponse timestamp
                          "Access denied. Insufficient permissions."
                          (Some "INSUFFICIENT_PERMISSIONS"%string) None)
      else Next user
  end.

(** A route declared as [router.get(path, authenticate, authorize(...roles),
    handler)]: [authorize] runs when [authenticate] called [next()]. *)
Definition guarded_route (roles : list string) (authorization : option (list ascii))
  : Outcome Payload :=
  match authenticate authorization with
  | Next user => authorize roles user
  | Respond status body => Respond status body
  end.





End Auth.

End Middleware.

(** ** The security monitor: [securityMonitor]
      ([server/src/utils/monitoring.js], lines 52-102)

    Its four regular expressions are alternations of literal texts, two of
    them case-insensitive, all with the [g] flag: [test] then starts at the
    expression's [lastIndex] and leaves the end of the match there, or 0
    after a failure.  The literals are new objects for each request and are
    shared by the check of the URL and the check of the body. *)

Module Security.

Import Helpers.

Record RegExp := mkRegExp {
  alternatives : list (list ascii);
  ignoreCase : bool;
  lastIndex : nat
}.

(** Case folding of the [i] flag; among the characters that can equal a
    folded ASCII character only the ASCII letters change. *)
Definition canonicalize (a : ascii) : ascii :=
  let n := Ascii.nat_of_ascii a in
  if ((97 <=? n) && (n <=? 122))%nat then Ascii.ascii_of_nat (n - 32) else a.

Definition char_matches (ignoreCase : bool) (p c : ascii) : bool :=
  if ignoreCase then Ascii.eqb (canonicalize p) (canonicalize c)
  else Ascii.eqb p c.

(** The literal [lit] matches at the start of [s]. *)
Fixpoint literal_at (ignoreCase : bool) (lit s : list ascii) : bool :=
  match lit, s with
  | [], _ => true
  | _ :: _, [] => false
  | p :: lit', c :: s' => char_matches ignoreCase p c && literal_at ignoreCase lit' s'
  end.

(** The alternation at the start of [s]: the length matched by the first
    alternative that matches there. *)
Fixpoint match_here (ignoreCase : bool) (alts : list (list ascii)) (s : list ascii)
  : option nat :=
  match alts with
  | [] => None
  | lit :: rest =>
      if literal_at ignoreCase lit s then Some (length lit)
      else match_here ignoreCase rest s
  end.

(** The leftmost match in [s]: where it starts and how long it is. *)
Fixpoint search (ignoreCase : bool) (alts : list (list ascii)) (s : list ascii)
  : option (nat * nat) :=
  match match_here ignoreCase alts s with
  | Some len => Some (0%nat, len)
  | None =>
      match s with
      | [] => None
      | _ :: s' => (λ m : nat * nat, (S m.1, m.2)) <$> search ignoreCase alts s'
      end
  end.

(** [pattern.test(str)] for a global expression: the answer and the
    expression with its new [lastIndex]. *)
Definition test (pattern : RegExp) (str : list ascii) : bool * RegExp :=
  let reset := mkRegExp (alternatives pattern) (ignoreCase pattern) 0 in
  if (length str <? lastIndex pattern)%nat then (false, reset)
  else
    match search (ignoreCase pattern) (alternatives pattern)
            (drop (lastIndex pattern) str) with
    | Some (start, len) =>
        (true, mkRegExp (alternatives pattern) (ignoreCase pattern)
                 (lastIndex pattern + start + len))
    | None => (false, reset)
    end.

(** [patterns.some(pattern => pattern.test(str))]: the expressions are
    tried in order up to the first that answers true. *)
Fixpoint some_test (patterns : list RegExp) (str : list ascii) : bool * list RegExp :=
  match patterns with
  | [] => (false, [])
  | pattern :: rest =>
      let '(found, pattern') := test pattern str in
      if found then (true, pattern' :: rest)
      else let '(found', rest') := some_test rest str in
           (found', pattern' :: rest')
  end.

Definition suspiciousPatterns : list RegExp :=
  [ mkRegExp [chars "<script>"; chars "</script>"] true 0;
    mkRegExp [chars "union"; chars "select"; chars "insert"; chars "delete";
              chars "drop"; chars "create"; chars "alter"; chars "exec";
              chars "execute"] true 0;
    mkRegExp [chars "../"; chars "..\"] false 0;
    mkRegExp [chars "%27"; chars "%22"; chars "'"; [double_quote]] false 0 ].

(** [str.includes(lit)] *)
Definition includes (lit str : list ascii) : bool :=
  bool_decide (is_Some (search false [lit] str)).

(** The calls of [logger.logSecurity], by their event name. *)
Inductive SecurityEvent :=
| SuspiciousURLPattern
| SuspiciousRequestBody
| FailedLoginAttempt.

Global Instance SecurityEvent_eq_dec : EqDecision SecurityEvent.
Proof. solve_decision. Defined.

(** One request through the monitor.  [body] is [JSON.stringify(req.body)]
    when [req.body] is an object and [None] otherwise; [statusCode] is the
    status of the response when it is finished, which the listener
    registered for login requests looks at.  The result lists the events
    logged for the request, in order. *)
Definition securityMonitor (url method : list ascii) (body : option (list ascii))
    (statusCode : Z) : list SecurityEvent :=
  let '(urlFound, patterns1) := some_test suspiciousPatterns url in
  let urlEvents := if urlFound then [SuspiciousURLPattern] else [] in
  let bodyEvents :=
    match body with
    | Some bodyStr =>
        if (some_test patterns1 bodyStr).1 then [SuspiciousRequestBody] else []
    | None => []
    end in
  let finishEvents :=
    if includes (chars "/auth/login") url && bool_decide (method = chars "POST")
    then (if statusCode =? 401 then [FailedLoginAttempt] else [])
    else [] in
  urlEvents ++ bodyEvents ++ finishEvents.

(** Two expression objects for the same literal of the source: they differ
    in [lastIndex] at most. *)
Definition same_pattern (r r' : RegExp) : Prop :=
  alternatives r = alternatives r' ∧ ignoreCase r = ignoreCase r'.

(** [lit] occurs in [s], up to case when [ignoreCase] is set. *)
Definition occurs (ignoreCase : bool) (lit s : list ascii) : Prop :=
  ∃ before m after,
    s = before ++ m ++ after ∧
    Forall2 (λ p c, char_matches ignoreCase p c = true) lit m.

(** [s] contains one of the texts the monitor looks for. *)
Definition suspicious (s : list ascii) : Prop :=
  ∃ pattern lit,
    pattern ∈ suspiciousPatterns ∧
    lit ∈ alternatives pattern ∧
    occurs (ignoreCase pattern) lit s.

End Security.

Import RateLimiter.

(** ** Basic facts about one call *)

Section CheckFacts.

Variables windowMs max : Z.

Lemma check_eq key now (requests : gmap string WindowCounter) :
  check windowMs max key now requests =
  Ok (match requests !! key with
      | None => (ADMIT, <[key := mkCounter 1 (now + windowMs)]> requests)
      | Some c =>
          if now >? resetTime c then
            (ADMIT, <[key := mkCounter 1 (now + windowMs)]> requests)
          else if count c >=? max then (REJECT, requests)
          else (ADMIT, <[key := mkCounter (count c + 1) (resetTime c)]> requests)
      end).
Proof.
  unfold check. destruct (requests !! key) as [c|] eqn:Hk.
  - rewrite bool_decide_true by eauto. simpl.
    destruct (now >? resetTime c); [done|].
    by destruct (count c >=? max).
  - rewrite bool_decide_false; [done|]. by intros [? ?].
Qed.

Lemma check_total key now (requests : gmap string WindowCounter) :
  ∃ v requests', check windowMs max key now requests = Ok (v, requests').
Proof.
  rewrite check_eq. destruct (requests !! key) as [c|]; [|eauto].
  destruct (now >? resetTime c); [eauto|].
  destruct (count c >=? max); eauto.
Qed.

Lemma check_lookup_eq key now (requests requests' : gmap string WindowCounter) v :
  check windowMs max key now requests = Ok (v, requests') →
  v = (window_step windowMs max (requests !! key) now).1 ∧
  requests' !! key = Some (window_step windowMs max (requests !! key) now).2.
Proof.
  rewrite check_eq. unfold window_step.
  destruct (requests !! key) as [c|] eqn:Hk.
  - destruct (now >? resetTime c).
    { intros [= <- <-]. by rewrite lookup_insert_eq. }
    destruct (count c >=? max); intros [= <- <-]; simpl.
    + done.
    + by rewrite lookup_insert_eq.
  - intros [= <- <-]. by rewrite lookup_insert_eq.
Qed.

Lemma check_lookup_ne key key' now (requests requests' : gmap string WindowCounter) v :
  key ≠ key' →
  check windowMs max key now requests = Ok (v, requests') →
  requests' !! key' = requests !! key'.
Proof.
  intros Hne. rewrite check_eq.
  destruct (requests !! key) as [c|].
  - destruct (now >? resetTime c).
    { intros [= <- <-]. by rewrite lookup_insert_ne. }
    destruct (count c >=? max); intros [= <- <-]; [done|].
    by rewrite lookup_insert_ne.
  - intros [= <- <-]. by rewrite lookup_insert_ne.
Qed.

Lemma check_reject_same key now (requests requests' : gmap string WindowCounter) :
  check windowMs max key now requests = Ok (REJECT, requests') →
  requests' = requests.
Proof.
  rewrite check_eq. destruct (requests !! key) as [c|]; [|done].
  destruct (now >? resetTime c); [done|].
  destruct (count c >=? max); [|done]. by intros [= <-].
Qed.

Lemma run_cons key now calls (requests : gmap string WindowCounter) v requests1 evs requests2 :
  check windowMs max key now requests = Ok (v, requests1) →
  run windowMs max requests1 calls = Ok (evs, requests2) →
  run windowMs max requests ((key, now) :: calls) =
    Ok (mkEvent key now v :: evs, requests2).
Proof. intros H1 H2. simpl. rewrite H1. simpl. by rewrite H2. Qed.

Lemma run_total calls : ∀ requests : gmap string WindowCounter,
  ∃ evs requests', run windowMs max requests calls = Ok (evs, requests') ∧
                   length evs = length calls.
Proof.
  induction calls as [|[key now] calls IH]; intros requests.
  - by exists [], requests.
  - destruct (check_total key now requests) as (v & r1 & Hc).
    destruct (IH r1) as (evs & r2 & Hr & Hlen).
    exists (mkEvent key now v :: evs), r2. split.
    + by apply run_cons with r1.
    + simpl. by rewrite Hlen.
Qed.

Lemma run_cons_inv key now calls (requests : gmap string WindowCounter) evs requests2 :
  run windowMs max requests ((key, now) :: calls) = Ok (evs, requests2) →
  ∃ v requests1 evs',
    check windowMs max key now requests = Ok (v, requests1) ∧
    run windowMs max requests1 calls = Ok (evs', requests2) ∧
    evs = mkEvent key now v :: evs'.
Proof.
  destruct (check_total key now requests) as (v & r1 & Hc).
  destruct (run_total calls r1) as (evs' & r2 & Hr & _).
  rewrite (run_cons key now calls requests v r1 evs' r2 Hc Hr). intros [= <- <-].
  by exists v, r1, evs'.
Qed.

Lemma run_lookup_untouched key calls :
  ∀ (requests requests' : gmap string WindowCounter) evs,
    Forall (λ c : string * Z, c.1 ≠ key) calls →
    run windowMs max requests calls = Ok (evs, requests') →
    requests' !! key = requests !! key.
Proof.
  induction calls as [|[k t] calls IH]; intros requests requests' evs Hall Hr.
  - simpl in Hr. by injection Hr as _ <-.
  - apply Forall_cons in Hall as [Hne Hall]. simpl in Hne.
    apply run_cons_inv in Hr as (v & r1 & evs' & Hc & Hr & _).
    rewrite (IH _ _ _ Hall Hr). by eapply check_lookup_ne.
Qed.

End CheckFacts.


(** ** Claims about a single call *)

(** C9: for every key, every clock reading and every state of the map,
    [check] raises nothing and yields exactly one verdict, ADMIT or REJECT,
    together with the next map; so does every sequence of calls, one verdict
    per call. *)
Theorem check_never_throws :
  ∀ (windowMs max : Z) (key : string) (now : Z) (requests : gmap string WindowCounter),
    (∃ v requests',
        check windowMs max key now requests = Ok (v, requests') ∧
        (v = ADMIT ∨ v = REJECT) ∧
        ∀ e, check windowMs max key now requests ≠ Throw e) ∧
    (∀ calls, ∃ evs requests',
        run windowMs max requests calls = Ok (evs, requests') ∧
        length evs = length calls).
Proof.
  intros windowMs max key now requests. split.
  - destruct (check_total windowMs max key now requests) as (v & r & Hc).
    exists v, r. split; [done|]. split.
    + destruct v; auto.
    + intros e. by rewrite Hc.
  - intros calls. apply run_total.
Qed.

(** C5: when the key has no counter, [check] stores a counter with
    [count = 1] and [resetTime = now + windowMs] and admits the request; and
    in the map of a new limiter a key has no counter as long as no call was
    made for it. *)
Theorem first_check_creates_counter :
  ∀ (windowMs max : Z) (key : string),
    (∀ now (requests : gmap string WindowCounter),
        requests !! key = None →
        check windowMs max key now requests =
          Ok (ADMIT, <[key := mkCounter 1 (now + windowMs)]> requests)) ∧
    (∀ calls,
        Forall (λ c : string * Z, c.1 ≠ key) calls →
        ∃ evs requests',
          run windowMs max new_requests calls = Ok (evs, requests') ∧
          requests' !! key = None).
Proof.
  intros windowMs max key. split.
  - intros now requests Hk. by rewrite check_eq, Hk.
  - intros calls Hall.
    destruct (run_total windowMs max calls new_requests) as (evs & r & Hr & _).
    exists evs, r. split; [done|].
    by rewrite (run_lookup_untouched _ _ _ _ _ _ _ Hall Hr).
Qed.

Lemma first_check_creates_counter_witness :
  check 1000 2 "A" 0 new_requests =
    Ok (ADMIT, <["A"%string := mkCounter 1 (0 + 1000)]> new_requests) ∧
  ∃ evs requests',
    run 1000 2 new_requests [("B"%string, 200)] = Ok (evs, requests') ∧
    requests' !! "A"%string = None.
Proof.
  destruct (first_check_creates_counter 1000 2 "A") as [H1 H2]. split.
  - apply H1. reflexivity.
  - apply H2. repeat constructor. simpl. discriminate.
Defined.

(** C4: a rejected call leaves the whole map as it was: the counter of the
    rejected key keeps its [count] and [resetTime], and the entry of every
    other key is the same as before. *)
Theorem reject_leaves_map_unchanged :
  ∀ (windowMs max : Z) (key : string) (now : Z)
    (requests requests' : gmap string WindowCounter),
    check windowMs max key now requests = Ok (REJECT, requests') →
    requests' = requests ∧ ∀ key', requests' !! key' = requests !! key'.
Proof.
  intros windowMs max key now requests requests' Hc.
  apply check_reject_same in Hc. by subst.
Qed.

Lemma reject_leaves_map_unchanged_witness :
  scenario_requests = <["A"%string := mkCounter 2 1000]> new_requests ∧
  ∀ key', scenario_requests !! key' =
          (<["A"%string := mkCounter 2 1000]> new_requests : gmap string WindowCounter) !! key'.
Proof.
  apply (reject_leaves_map_unchanged 1000 2 "A" 200
           (<["A"%string := mkCounter 2 1000]> new_requests) scenario_requests).
  vm_compute. reflexivity.
Defined.

(** C1, at the boundary: in the scenario the stored window of "A" has
    [resetTime = 1000]; the call at [now = 1000] satisfies
    [now >= resetTime], yet it is rejected and the counter is kept. *)
Lemma check_at_resetTime_rejected :
  scenario_requests !! "A"%string = Some (mkCounter 2 1000) ∧
  1000 >= resetTime (mkCounter 2 1000) ∧
  check 1000 2 "A" 1000 scenario_requests = Ok (REJECT, scenario_requests).
Proof. split; [|split]; [reflexivity | simpl; lia | vm_compute; reflexivity]. Qed.

(** C1, amended: for a key that has a counter, a call with
    [now > resetTime] (strictly) is admitted and replaces the counter by a
    fresh one, [count = 1] and [resetTime = now + windowMs]; a call with
    [now = resetTime] is still handled in the old window (rejected when the
    quota is used up, counted otherwise).  In the scenario
    (one second, two requests, after the calls for "A" at 0, 100 and 200) the
    call at 1000 is rejected with the counter kept at [count = 2],
    [resetTime = 1000], and the call at 1001 is admitted with [count = 1],
    [resetTime = 2001]. *)
Theorem check_after_resetTime_admits :
  (∀ (windowMs max : Z) (key : string) (now : Z)
     (requests : gmap string WindowCounter) (c : WindowCounter),
      requests !! key = Some c →
      now > resetTime c →
      check windowMs max key now requests =
        Ok (ADMIT, <[key := mkCounter 1 (now + windowMs)]> requests)) ∧
  (∀ (windowMs max : Z) (key : string) (now : Z)
     (requests : gmap string WindowCounter) (c : WindowCounter),
      requests !! key = Some c →
      now = resetTime c →
      check windowMs max key now requests =
        Ok (if count c >=? max then (REJECT, requests)
            else (ADMIT, <[key := mkCounter (count c + 1) (resetTime c)]> requests))) ∧
  (∃ evs requests,
      run 1000 2 new_requests scenario_calls = Ok (evs, requests) ∧
      check 1000 2 "A" 1000 requests = Ok (REJECT, requests) ∧
      requests !! "A"%string = Some (mkCounter 2 1000) ∧
      ∃ requests',
        check 1000 2 "A" 1001 requests = Ok (ADMIT, requests') ∧
        requests' !! "A"%string = Some (mkCounter 1 2001)).
Proof.
  split; [|split].
  - intros windowMs max key now requests c Hk Hnow.
    rewrite check_eq, Hk.
    destruct (Z.gtb_spec now (resetTime c)); [done|lia].
  - intros windowMs max key now requests c Hk Hnow.
    rewrite check_eq, Hk.
    destruct (Z.gtb_spec now (resetTime c)); [lia|].
    by destruct (count c >=? max).
  - destruct (run_total 1000 2 scenario_calls new_requests) as (evs & r & Hr & _).
    exists evs, r. split; [done|].
    vm_compute in Hr. injection Hr as _ <-.
    split; [vm_compute; reflexivity|]. split; [reflexivity|].
    eexists. split; [vm_compute; reflexivity|reflexivity].
Qed.

Lemma check_after_resetTime_admits_witness :
  check 1000 2 "A" 1001 scenario_requests =
    Ok (ADMIT, <["A"%string := mkCounter 1 (1001 + 1000)]> scenario_requests).
Proof.
  apply (proj1 check_after_resetTime_admits 1000 2 "A"%string 1001
           scenario_requests (mkCounter 2 1000)).
  - reflexivity.
  - simpl. lia.
Defined.

(** C8: [check] is not idempotent.  With a positive window every admitted
    call changes the counter stored under its key (it creates, resets or
    increments it), only a rejected call leaves the map alone; and for a
    limiter of one request per second, two calls with the same key and the
    same clock reading get different verdicts: first ADMIT, then REJECT. *)
Theorem check_not_idempotent :
  (∀ (windowMs max : Z) (key : string) (now : Z)
     (requests requests' : gmap string WindowCounter) (v : Verdict),
      0 < windowMs →
      check windowMs max key now requests = Ok (v, requests') →
      (v = ADMIT → requests' !! key ≠ requests !! key ∧ requests' ≠ requests) ∧
      (v = REJECT → requests' = requests)) ∧
  (∃ (windowMs max : Z) (key : string) (now : Z)
     (requests requests1 requests2 : gmap string WindowCounter),
      check windowMs max key now requests = Ok (ADMIT, requests1) ∧
      check windowMs max key now requests1 = Ok (REJECT, requests2)).
Proof.
  split.
  - intros windowMs max key now requests requests' v Hw Hc. split.
    + intros ->.
      assert (Hne : requests' !! key ≠ requests !! key).
      { revert Hc. rewrite check_eq.
        destruct (requests !! key) as [[n r]|] eqn:Hk; simpl.
        - destruct (Z.gtb_spec now r).
          { intros [= <-]. rewrite lookup_insert_eq. intros [= _ Hr]. lia. }
          destruct (n >=? max); [done|].
          intros [= <-]. rewrite lookup_insert_eq. intros [= Hn]. lia.
        - intros [= <-]. by rewrite lookup_insert_eq. }
      split; [done|]. intros ->. by apply Hne.
    + intros ->. by apply check_reject_same in Hc.
  - exists 1000, 1, "A"%string, 0, new_requests.
    eexists _, _. split; vm_compute; reflexivity.
Qed.

Lemma check_not_idempotent_witness :
  (ADMIT = ADMIT →
   (<["A"%string := mkCounter 1 1000]> new_requests : gmap string WindowCounter) !! "A"%string
     ≠ new_requests !! "A"%string ∧
   <["A"%string := mkCounter 1 1000]> new_requests ≠ new_requests) ∧
  (ADMIT = REJECT → <["A"%string := mkCounter 1 1000]> new_requests = new_requests).
Proof.
  apply (proj1 check_not_idempotent 1000 2 "A"%string 0).
  - lia.
  - vm_compute. reflexivity.
Defined.

(** C10: with [max >= 1], in every state reached from the empty map by any
    sequence of calls, each stored counter has [1 <= count <= max]. *)
Theorem reachable_count_bounds :
  ∀ (windowMs max : Z) (requests : gmap string WindowCounter)
    (key : string) (c : WindowCounter),
    1 ≤ max →
    reachable windowMs max requests →
    requests !! key = Some c →
    1 ≤ count c ≤ max.
Proof.
  intros windowMs max requests key c Hmax Hreach. revert key c.
  induction Hreach as [|k now requests v requests' Hreach IH Hc]; intros key c Hk.
  - unfold new_requests in Hk. by rewrite lookup_empty in Hk.
  - destruct (decide (k = key)) as [->|Hne].
    + apply check_lookup_eq in Hc as [_ Hc]. rewrite Hc in Hk.
      injection Hk as <-. unfold window_step.
      destruct (requests !! key) as [c0|] eqn:Hk0; simpl; [|lia].
      specialize (IH _ _ Hk0).
      destruct (now >? resetTime c0); simpl; [lia|].
      destruct (Z.geb_spec (count c0) max); simpl; lia.
    + rewrite (check_lookup_ne _ _ _ _ _ _ _ _ Hne Hc) in Hk. eauto.
Qed.

Lemma reachable_count_bounds_witness : 1 ≤ count (mkCounter 2 1000) ≤ 2.
Proof.
  apply (reachable_count_bounds 1000 2
           (<["A"%string := mkCounter 2 1000]> new_requests)
           "A"%string (mkCounter 2 1000)).
  - lia.
  - apply (reachable_check 1000 2 "A"%string 100
             (<["A"%string := mkCounter 1 1000]> new_requests) ADMIT);
      [|vm_compute; reflexivity].
    apply (reachable_check 1000 2 "A"%string 0 new_requests ADMIT);
      [|vm_compute; reflexivity].
    apply reachable_new.
  - reflexivity.
Defined.

(** ** Runs of calls within one window *)

Section WindowFacts.

Variables windowMs max : Z.

Lemma check_opens key now (requests : gmap string WindowCounter) :
  opens_window requests key now →
  check windowMs max key now requests =
    Ok (ADMIT, <[key := mkCounter 1 (now + windowMs)]> requests).
Proof.
  unfold opens_window. rewrite check_eq.
  destruct (requests !! key) as [c|]; [|done]. intros Hlt.
  destruct (Z.gtb_spec now (resetTime c)); [done|lia].
Qed.

Lemma verdicts_admitted key ts :
  verdicts (admitted key <$> ts) = replicate (length ts) ADMIT.
Proof. unfold verdicts. induction ts as [|t ts IH]; [done|]. simpl. by f_equal. Qed.

Lemma run_app calls1 calls2 :
  ∀ (requests r1 r2 : gmap string WindowCounter) evs1 evs2,
    run windowMs max requests calls1 = Ok (evs1, r1) →
    run windowMs max r1 calls2 = Ok (evs2, r2) →
    run windowMs max requests (calls1 ++ calls2) = Ok (evs1 ++ evs2, r2).
Proof.
  induction calls1 as [|[k t] calls1 IH]; intros requests r1 r2 evs1 evs2 H1 H2.
  - simpl in H1. by injection H1 as <- <-.
  - apply run_cons_inv in H1 as (v & r0 & evs0 & Hc & Hr & ->).
    simpl app. eapply run_cons; [exact Hc|]. by eapply IH.
Qed.

(** While the window lasts and the quota is not used up every call is
    admitted and counted. *)
Lemma run_inside_window key ts :
  ∀ (requests : gmap string WindowCounter) n r,
    requests !! key = Some (mkCounter n r) →
    Forall (λ t, t ≤ r) ts →
    n + Z.of_nat (length ts) ≤ max →
    ∃ requests',
      run windowMs max requests ((λ t, (key, t)) <$> ts) =
        Ok (admitted key <$> ts, requests') ∧
      requests' !! key = Some (mkCounter (n + Z.of_nat (length ts)) r).
Proof.
  induction ts as [|t ts IH]; intros requests n r Hk Hall Hlen.
  - exists requests. simpl. by rewrite Z.add_0_r.
  - apply Forall_cons in Hall as [Ht Hall]. simpl length in Hlen.
    assert (Hc : check windowMs max key t requests =
                 Ok (ADMIT, <[key := mkCounter (n + 1) r]> requests)).
    { rewrite check_eq, Hk. simpl.
      destruct (Z.gtb_spec t r); [lia|].
      destruct (Z.geb_spec n max); [lia|done]. }
    destruct (IH (<[key := mkCounter (n + 1) r]> requests) (n + 1) r)
      as (r2 & Hr & Hk2); [by rewrite lookup_insert_eq|done|lia|].
    exists r2. split.
    + rewrite !fmap_cons. by eapply run_cons.
    + rewrite Hk2. f_equal. f_equal. simpl length. lia.
Qed.

(** A call that opens a window followed by calls up to the window's
    [resetTime], as many as the quota allows. *)
Lemma run_new_window key t1 ts (requests : gmap string WindowCounter) :
  opens_window requests key t1 →
  Forall (λ t, t ≤ t1 + windowMs) ts →
  1 + Z.of_nat (length ts) ≤ max →
  ∃ requests',
    run windowMs max requests ((λ t, (key, t)) <$> (t1 :: ts)) =
      Ok (admitted key <$> (t1 :: ts), requests') ∧
    requests' !! key = Some (mkCounter (1 + Z.of_nat (length ts)) (t1 + windowMs)).
Proof.
  intros Hopen Hall Hlen.
  pose proof (check_opens key t1 requests Hopen) as Hc.
  destruct (run_inside_window key ts
              (<[key := mkCounter 1 (t1 + windowMs)]> requests) 1 (t1 + windowMs))
    as (r2 & Hr & Hk2).
  - by rewrite lookup_insert_eq.
  - done.
  - done.
  - exists r2. split; [|done].
    rewrite !fmap_cons. by eapply run_cons.
Qed.

Lemma Forall_lt_le (bound : Z) ts :
  Forall (λ t, t < bound) ts → Forall (λ t, t ≤ bound) ts.
Proof. intros H. eapply Forall_impl; [exact H|]. simpl. intros; lia. Qed.

End WindowFacts.

(** C2: from a map without a counter for the key, [max] calls for that key
    at non-decreasing times, all before the first time plus [windowMs], are
    all admitted. *)
Theorem quota_calls_all_admitted :
  ∀ (windowMs max : Z) (key : string) (requests : gmap string WindowCounter)
    (t1 : Z) (ts : list Z),
    0 < max →
    0 < windowMs →
    requests !! key = None →
    length (t1 :: ts) = Z.to_nat max →
    Sorted Z.le (t1 :: ts) →
    Forall (λ t, t < t1 + windowMs) (t1 :: ts) →
    ∃ evs requests',
      run windowMs max requests ((λ t, (key, t)) <$> (t1 :: ts)) = Ok (evs, requests') ∧
      verdicts evs = replicate (Z.to_nat max) ADMIT.
Proof.
  intros windowMs max key requests t1 ts Hmax Hw Hk Hlen _ Hall.
  apply Forall_cons in Hall as [_ Hall].
  destruct (run_new_window windowMs max key t1 ts requests) as (r & Hr & _).
  - unfold opens_window. by rewrite Hk.
  - by apply Forall_lt_le.
  - simpl length in Hlen. lia.
  - exists (admitted key <$> (t1 :: ts)), r. split; [done|].
    by rewrite verdicts_admitted, Hlen.
Qed.

Lemma quota_calls_all_admitted_witness :
  ∃ evs requests',
    run 1000 2 new_requests ((λ t, ("A"%string, t)) <$> [0; 100]) = Ok (evs, requests') ∧
    verdicts evs = replicate (Z.to_nat 2) ADMIT.
Proof.
  apply (quota_calls_all_admitted 1000 2 "A"%string new_requests 0 [100]).
  - lia.
  - lia.
  - reflexivity.
  - reflexivity.
  - repeat constructor; lia.
  - repeat constructor; lia.
Defined.

(** C3: once a window has been opened for the key and [max] calls have been
    admitted in it, one more call for the key before the window's
    [resetTime] is rejected. *)
Theorem call_after_quota_rejected :
  ∀ (windowMs max : Z) (key : string) (requests : gmap string WindowCounter)
    (t1 : Z) (ts : list Z) (t : Z),
    opens_window requests key t1 →
    length (t1 :: ts) = Z.to_nat max →
    Forall (λ t', t' < t1 + windowMs) (t1 :: ts) →
    t < t1 + windowMs →
    ∃ evs requests' c,
      run windowMs max requests ((λ t', (key, t')) <$> (t1 :: ts)) = Ok (evs, requests') ∧
      verdicts evs = replicate (Z.to_nat max) ADMIT ∧
      requests' !! key = Some c ∧ resetTime c = t1 + windowMs ∧
      check windowMs max key t requests' = Ok (REJECT, requests').
Proof.
  intros windowMs max key requests t1 ts t Hopen Hlen Hall Ht.
  apply Forall_cons in Hall as [_ Hall].
  destruct (run_new_window windowMs max key t1 ts requests)
    as (r & Hr & Hk); [done|by apply Forall_lt_le|simpl length in Hlen; lia|].
  exists (admitted key <$> (t1 :: ts)), r,
    (mkCounter (1 + Z.of_nat (length ts)) (t1 + windowMs)).
  split; [done|]. split; [by rewrite verdicts_admitted, Hlen|].
  split; [done|]. split; [done|].
  rewrite check_eq, Hk. simpl.
  destruct (Z.gtb_spec t (t1 + windowMs)); [lia|].
  destruct (Z.geb_spec (1 + Z.of_nat (length ts)) max); [done|].
  simpl length in Hlen. lia.
Qed.

Lemma call_after_quota_rejected_witness :
  ∃ evs requests' c,
    run 1000 2 new_requests ((λ t', ("A"%string, t')) <$> [0; 100]) = Ok (evs, requests') ∧
    verdicts evs = replicate (Z.to_nat 2) ADMIT ∧
    requests' !! "A"%string = Some c ∧ resetTime c = 0 + 1000 ∧
    check 1000 2 "A" 200 requests' = Ok (REJECT, requests').
Proof.
  apply (call_after_quota_rejected 1000 2 "A"%string new_requests 0 [100] 200).
  - exact I.
  - reflexivity.
  - repeat constructor; lia.
  - lia.
Defined.

(** ** Keys do not interfere *)

Section Independence.

Variables windowMs max : Z.

Lemma events_of_cons_eq key now v evs :
  events_of key (mkEvent key now v :: evs) = mkEvent key now v :: events_of key evs.
Proof. unfold events_of. by rewrite filter_cons_True. Qed.

Lemma events_of_cons_ne key key' now v evs :
  key' ≠ key →
  events_of key (mkEvent key' now v :: evs) = events_of key evs.
Proof. intros Hne. unfold events_of. by rewrite filter_cons_False. Qed.

(** Two maps that agree on [k2] give [k2] the same verdicts and the same
    final counter, also when all calls for another key [k1] are erased from
    the history run on the second map. *)
Lemma run_erase_other_key k1 k2 calls :
  k1 ≠ k2 →
  ∀ (ra rb ra' rb' : gmap string WindowCounter) evs evs',
    ra !! k2 = rb !! k2 →
    run windowMs max ra calls = Ok (evs, ra') →
    run windowMs max rb (filter (λ c : string * Z, c.1 ≠ k1) calls) = Ok (evs', rb') →
    events_of k2 evs = events_of k2 evs' ∧ ra' !! k2 = rb' !! k2.
Proof.
  intros Hne. induction calls as [|[k t] calls IH];
    intros ra rb ra' rb' evs evs' Hagree Ha Hb.
  - simpl in Ha, Hb. injection Ha as <- <-. by injection Hb as <- <-.
  - apply run_cons_inv in Ha as (va & ra1 & evsa & Hca & Hra & ->).
    destruct (decide (k = k1)) as [->|Hk1].
    + rewrite filter_cons_False in Hb by (simpl; tauto).
      rewrite events_of_cons_ne by done.
      apply (IH ra1 rb ra' rb' evsa evs'); [|done|done].
      rewrite <- Hagree. by eapply check_lookup_ne.
    + rewrite filter_cons_True in Hb by done.
      apply run_cons_inv in Hb as (vb & rb1 & evsb & Hcb & Hrb & ->).
      destruct (decide (k = k2)) as [->|Hk2].
      * apply check_lookup_eq in Hca as [-> Hla].
        apply check_lookup_eq in Hcb as [-> Hlb].
        rewrite !events_of_cons_eq, Hagree.
        destruct (IH ra1 rb1 ra' rb' evsa evsb) as [-> ->]; [|done|done|done].
        by rewrite Hla, Hlb, Hagree.
      * rewrite !events_of_cons_ne by done.
        apply (IH ra1 rb1 ra' rb' evsa evsb); [|done|done].
        rewrite (check_lookup_ne _ _ _ _ _ _ _ _ Hk2 Hca).
        by rewrite (check_lookup_ne _ _ _ _ _ _ _ _ Hk2 Hcb).
Qed.

End Independence.

(** C6: for distinct keys [k1] and [k2], a call for [k1] leaves the counter
    of [k2] as it was; erasing every call for [k1] from a history changes
    neither the verdicts of the calls for [k2] nor the final counter of
    [k2]; in particular after any number of calls for [k1] a call for [k2]
    gets the verdict and the counter it would have got without them. *)
Theorem distinct_keys_independent :
  ∀ (windowMs max : Z) (k1 k2 : string) (requests : gmap string WindowCounter),
    k1 ≠ k2 →
    (∀ t v requests',
        check windowMs max k1 t requests = Ok (v, requests') →
        requests' !! k2 = requests !! k2) ∧
    (∀ calls, ∃ evs evs' r r',
        run windowMs max requests calls = Ok (evs, r) ∧
        run windowMs max requests (filter (λ c : string * Z, c.1 ≠ k1) calls) = Ok (evs', r') ∧
        events_of k2 evs = events_of k2 evs' ∧
        r !! k2 = r' !! k2) ∧
    (∀ ts1 t, ∃ evs r v r2 r2',
        run windowMs max requests ((λ t', (k1, t')) <$> ts1) = Ok (evs, r) ∧
        check windowMs max k2 t r = Ok (v, r2) ∧
        check windowMs max k2 t requests = Ok (v, r2') ∧
        r2 !! k2 = r2' !! k2).
Proof.
  intros windowMs max k1 k2 requests Hne. split; [|split].
  - intros t v requests' Hc. by eapply check_lookup_ne.
  - intros calls.
    destruct (run_total windowMs max calls requests) as (evs & r & Hr & _).
    destruct (run_total windowMs max (filter (λ c : string * Z, c.1 ≠ k1) calls) requests)
      as (evs' & r' & Hr' & _).
    exists evs, evs', r, r'. split; [done|]. split; [done|].
    by eapply run_erase_other_key.
  - intros ts1 t.
    destruct (run_total windowMs max ((λ t', (k1, t')) <$> ts1) requests)
      as (evs & r & Hr & _).
    assert (Hsame : r !! k2 = requests !! k2).
    { eapply run_lookup_untouched; [|exact Hr].
      apply Forall_fmap, Forall_true. by intros t'. }
    destruct (check_total windowMs max k2 t r) as (v & r2 & Hc).
    destruct (check_total windowMs max k2 t requests) as (v' & r2' & Hc').
    exists evs, r, v, r2, r2'. split; [done|]. split; [done|].
    pose proof (check_lookup_eq _ _ _ _ _ _ _ Hc) as [-> Hl].
    pose proof (check_lookup_eq _ _ _ _ _ _ _ Hc') as [-> Hl'].
    rewrite Hsame in *. split; [done|]. by rewrite Hl, Hl'.
Qed.

Lemma distinct_keys_independent_witness :
  ∃ evs r v r2 r2',
    run 1000 2 new_requests ((λ t', ("A"%string, t')) <$> [0; 100; 200]) = Ok (evs, r) ∧
    check 1000 2 "B" 200 r = Ok (v, r2) ∧
    check 1000 2 "B" 200 new_requests = Ok (v, r2') ∧
    r2 !! "B"%string = r2' !! "B"%string.
Proof.
  apply (distinct_keys_independent 1000 2 "A"%string "B"%string new_requests).
  discriminate.
Defined.

(** The scenario's last line: with the quota of "A" used up, the call for
    "B" at 200 is admitted with [count = 1] and [resetTime = 1200]. *)
Example scenario_other_key_admitted :
  ∃ requests',
    check 1000 2 "B" 200 scenario_requests = Ok (ADMIT, requests') ∧
    requests' !! "B"%string = Some (mkCounter 1 1200) ∧
    requests' !! "A"%string = Some (mkCounter 2 1000).
Proof. eexists. split; [vm_compute; reflexivity|]. split; reflexivity. Qed.

(** ** Admissions in a rolling interval *)

Section Counting.

Variable key : string.
Variables a b : Z.

Lemma admitted_in_cons k t v evs :
  admitted_in key a b (mkEvent k t v :: evs) =
  (if decide (k = key ∧ v = ADMIT ∧ a ≤ t ≤ b) then 1 else 0) + admitted_in key a b evs.
Proof.
  unfold admitted_in. rewrite filter_cons. simpl.
  case_decide; simpl length; lia.
Qed.

Lemma admitted_in_cons_le k t v evs :
  admitted_in key a b (mkEvent k t v :: evs) ≤ 1 + admitted_in key a b evs.
Proof. rewrite admitted_in_cons. case_decide; lia. Qed.

Lemma admitted_in_cons_skip k t v evs :
  k ≠ key ∨ v = REJECT ∨ t < a ∨ b < t →
  admitted_in key a b (mkEvent k t v :: evs) = admitted_in key a b evs.
Proof.
  intros H. rewrite admitted_in_cons. case_decide as Hd; [|lia].
  destruct Hd as (-> & -> & ?). destruct H as [?|[?|[?|?]]]; try done; lia.
Qed.

Lemma admitted_in_app evs1 evs2 :
  admitted_in key a b (evs1 ++ evs2) =
  admitted_in key a b evs1 + admitted_in key a b evs2.
Proof. unfold admitted_in. rewrite filter_app, length_app. lia. Qed.

Lemma admitted_in_admitted ts :
  Forall (λ t, a ≤ t ≤ b) ts →
  admitted_in key a b (admitted key <$> ts) = Z.of_nat (length ts).
Proof.
  induction 1 as [|t ts Ht _ IH]; [done|].
  rewrite fmap_cons. unfold admitted at 1. rewrite admitted_in_cons, IH.
  rewrite decide_True by done. simpl length. lia.
Qed.

Lemma admitted_in_outside ts :
  Forall (λ t, t < a ∨ b < t) ts →
  admitted_in key a b (admitted key <$> ts) = 0.
Proof.
  induction 1 as [|t ts Ht _ IH]; [done|].
  rewrite fmap_cons. unfold admitted at 1. by rewrite admitted_in_cons_skip by tauto.
Qed.

End Counting.

Section RollingInterval.

Variables windowMs max : Z.
Variable key : string.
Variable a : Z.

Hypothesis max_pos : 1 ≤ max.

Lemma sorted_cons_inv (t : Z) (k : string) (calls : list (string * Z)) :
  StronglySorted Z.le ((k, t).2 :: calls.*2) →
  StronglySorted Z.le (calls.*2) ∧ Forall (λ c : string * Z, t ≤ c.2) calls.
Proof.
  intros Hs. apply StronglySorted_inv in Hs as [Hs Hall]. split; [done|].
  rewrite Forall_fmap in Hall. eapply Forall_impl; [exact Hall|]. by intros [k' t'].
Qed.

(** Calls after the end of the interval do not count. *)
Lemma admitted_in_after b calls :
  ∀ (requests requests' : gmap string WindowCounter) evs,
    Forall (λ c : string * Z, b < c.2) calls →
    run windowMs max requests calls = Ok (evs, requests') →
    admitted_in key a b evs = 0.
Proof.
  induction calls as [|[k t] calls IH]; intros requests requests' evs Hall Hr.
  - simpl in Hr. by injection Hr as <- _.
  - apply Forall_cons in Hall as [Ht Hall]. simpl in Ht.
    apply run_cons_inv in Hr as (v & r1 & evs' & Hc & Hr & ->).
    rewrite admitted_in_cons_skip by auto. by eapply IH.
Qed.

(** A window that lasts to the end of the interval admits what is left of
    its quota. *)
Lemma admitted_in_last_window calls :
  ∀ (requests requests' : gmap string WindowCounter) evs n r,
    StronglySorted Z.le (calls.*2) →
    requests !! key = Some (mkCounter n r) →
    a + windowMs ≤ r →
    run windowMs max requests calls = Ok (evs, requests') →
    admitted_in key a (a + windowMs) evs ≤ Z.max 0 (max - n).
Proof using max_pos.
  induction calls as [|[k t] calls IH]; intros requests requests' evs n r Hs Hk Hr Hrun.
  - simpl in Hrun. injection Hrun as <- _. unfold admitted_in. simpl. lia.
  - pose proof Hrun as Hrun0.
    rewrite fmap_cons in Hs. apply sorted_cons_inv in Hs as [Hs Hall].
    apply run_cons_inv in Hrun as (v & r1 & evs' & Hc & Hrun & ->).
    destruct (decide (k = key)) as [->|Hne].
    + destruct (decide (r < t)) as [Hlate|Hin].
      * erewrite (admitted_in_after (a + windowMs) ((key, t) :: calls)); [lia| |exact Hrun0].
        constructor; [simpl; lia|].
        eapply Forall_impl; [exact Hall|]. simpl. intros; lia.
      * clear Hrun0. apply check_lookup_eq in Hc as [-> Hk1]. rewrite Hk in Hk1 |- *.
        unfold window_step in *. simpl in *.
        destruct (Z.gtb_spec t r); [lia|].
        destruct (Z.geb_spec n max); simpl in *.
        -- rewrite admitted_in_cons_skip by auto.
           by eapply (IH r1 requests' evs' n r).
        -- pose proof (admitted_in_cons_le key a (a + windowMs) key t ADMIT evs').
           pose proof (IH r1 requests' evs' (n + 1) r Hs Hk1 Hr Hrun). lia.
    + rewrite admitted_in_cons_skip by auto.
      eapply (IH r1 requests' evs' n r); [done| |done|done].
      rewrite <- Hk. by eapply check_lookup_ne.
Qed.

Lemma admitted_in_from_start calls :
  ∀ (requests requests' : gmap string WindowCounter) evs,
    StronglySorted Z.le (calls.*2) →
    Forall (λ c : string * Z, a ≤ c.2) calls →
    run windowMs max requests calls = Ok (evs, requests') →
    admitted_in key a (a + windowMs) evs ≤ interval_budget max (requests !! key).
Proof using max_pos.
  induction calls as [|[k t] calls IH]; intros requests requests' evs Hs Hall Hrun.
  - simpl in Hrun. injection Hrun as <- _. unfold admitted_in, interval_budget. simpl.
    destruct (requests !! key); lia.
  - rewrite fmap_cons in Hs. apply sorted_cons_inv in Hs as [Hs _].
    apply Forall_cons in Hall as [Ht Hall]. simpl in Ht.
    apply run_cons_inv in Hrun as (v & r1 & evs' & Hc & Hrun & ->).
    pose proof (IH r1 requests' evs' Hs Hall Hrun) as IH1.
    destruct (decide (k = key)) as [->|Hne].
    + pose proof (admitted_in_cons_le key a (a + windowMs) key t v evs') as Hle.
      assert (Hfresh : r1 !! key = Some (mkCounter 1 (t + windowMs)) →
                       admitted_in key a (a + windowMs) evs' ≤ max - 1).
      { intros Hk1.
        pose proof (admitted_in_last_window calls r1 requests' evs' 1 (t + windowMs)
                      Hs Hk1 ltac:(lia) Hrun). lia. }
      apply check_lookup_eq in Hc as [-> Hk1]. unfold window_step in *.
      destruct (requests !! key) as [[n r]|]; simpl in *.
      * destruct (Z.gtb_spec t r); simpl in *.
        { specialize (Hfresh Hk1). lia. }
        destruct (Z.geb_spec n max); simpl in *.
        -- rewrite admitted_in_cons_skip by auto. rewrite Hk1 in IH1. simpl in IH1. lia.
        -- rewrite Hk1 in IH1. simpl in IH1. lia.
      * specialize (Hfresh Hk1). lia.
    + rewrite admitted_in_cons_skip by auto.
      by rewrite <- (check_lookup_ne _ _ _ _ _ _ _ _ Hne Hc).
Qed.

(** The bound for a whole history, from any map whose counter for the key
    has counted at least the request that created it. *)
Lemma admitted_in_bound calls :
  ∀ (requests requests' : gmap string WindowCounter) evs,
    StronglySorted Z.le (calls.*2) →
    (∀ c, requests !! key = Some c → 1 ≤ count c) →
    run windowMs max requests calls = Ok (evs, requests') →
    admitted_in key a (a + windowMs) evs ≤ 2 * max - 1.
Proof using max_pos.
  induction calls as [|[k t] calls IH]; intros requests requests' evs Hs Hinv Hrun.
  - simpl in Hrun. injection Hrun as <- _. unfold admitted_in. simpl. lia.
  - destruct (decide (a ≤ t)) as [Hin|Hbefore].
    + pose proof Hs as Hs0. rewrite fmap_cons in Hs0.
      apply sorted_cons_inv in Hs0 as [_ Hall].
      pose proof (admitted_in_from_start ((k, t) :: calls) requests requests' evs Hs) as Hb.
      unfold interval_budget in Hb.
      assert (Hall' : Forall (λ c : string * Z, a ≤ c.2) ((k, t) :: calls)).
      { constructor; [done|]. eapply Forall_impl; [exact Hall|]. simpl. intros; lia. }
      specialize (Hb Hall' Hrun).
      destruct (requests !! key) as [c|] eqn:Hk; [|lia].
      specialize (Hinv c eq_refl). lia.
    + rewrite fmap_cons in Hs. apply sorted_cons_inv in Hs as [Hs _].
      apply run_cons_inv in Hrun as (v & r1 & evs' & Hc & Hrun & ->).
      rewrite admitted_in_cons_skip by (right; right; left; lia).
      apply (IH r1 requests' evs' Hs); [|done].
      intros c Hk1. destruct (decide (k = key)) as [->|Hne].
      * apply check_lookup_eq in Hc as [_ Hk2]. rewrite Hk2 in Hk1.
        injection Hk1 as <-. unfold window_step.
        destruct (requests !! key) as [c0|] eqn:Hk0; simpl; [|lia].
        specialize (Hinv c0 eq_refl).
        destruct (t >? resetTime c0); simpl; [lia|].
        destruct (count c0 >=? max); simpl; lia.
      * rewrite (check_lookup_ne _ _ _ _ _ _ _ _ Hne Hc) in Hk1. eauto.
Qed.

End RollingInterval.

(** ** The seam between two windows *)

Section Seam.

Variables windowMs max : Z.
Variable key : string.

Hypothesis windowMs_pos : 0 < windowMs.
Hypothesis max_pos : 1 ≤ max.

Lemma calls_times (ts : list Z) : ((λ t, (key, t)) <$> ts).*2 = ts.
Proof. induction ts as [|t ts IH]; [done|]. simpl. by f_equal. Qed.

Lemma replicate_sorted n (x : Z) : StronglySorted Z.le (replicate n x).
Proof.
  induction n as [|n IH]; simpl; constructor; [done|].
  apply Forall_replicate. lia.
Qed.

Lemma seam_times_sorted : Sorted Z.le ((seam_calls windowMs max key).*2).
Proof using windowMs_pos max_pos.
  unfold seam_calls. rewrite calls_times. apply StronglySorted_Sorted.
  unfold seam_times. constructor.
  - apply StronglySorted_app_2; [|apply replicate_sorted..].
    intros x1 x2 [-> _]%elem_of_replicate [-> _]%elem_of_replicate. lia.
  - apply Forall_app. split; apply Forall_replicate; lia.
Qed.

Lemma seam_run :
  ∃ requests',
    run windowMs max new_requests (seam_calls windowMs max key) =
      Ok (admitted key <$> seam_times windowMs max, requests').
Proof using windowMs_pos max_pos.
  unfold seam_calls, seam_times.
  replace (Z.to_nat max) with (S (Z.to_nat (max - 1))) by lia.
  rewrite replicate_S, app_comm_cons, !fmap_app.
  destruct (run_new_window windowMs max key 0
              (replicate (Z.to_nat (max - 1)) windowMs) new_requests)
    as (r1 & Hr1 & Hk1).
  { exact I. }
  { apply Forall_replicate. lia. }
  { rewrite length_replicate. lia. }
  destruct (run_new_window windowMs max key (windowMs + 1)
              (replicate (Z.to_nat (max - 1)) (windowMs + 1)) r1)
    as (r2 & Hr2 & _).
  { unfold opens_window. rewrite Hk1. simpl. lia. }
  { apply Forall_replicate. lia. }
  { rewrite length_replicate. lia. }
  exists r2. by eapply run_app.
Qed.

Lemma seam_admitted :
  admitted_in key 1 (1 + windowMs) (admitted key <$> seam_times windowMs max) =
  2 * max - 1.
Proof using windowMs_pos max_pos.
  unfold seam_times. rewrite fmap_cons. unfold admitted at 1.
  rewrite admitted_in_cons_skip by lia.
  rewrite admitted_in_admitted.
  - rewrite length_app, !length_replicate. lia.
  - apply Forall_app. split; apply Forall_replicate; lia.
Qed.

Lemma seam_admitted_before :
  admitted_in key 1 windowMs (admitted key <$> seam_times windowMs max) = max - 1.
Proof using windowMs_pos max_pos.
  unfold seam_times. rewrite fmap_cons. unfold admitted at 1.
  rewrite admitted_in_cons_skip by lia.
  rewrite fmap_app, admitted_in_app.
  rewrite admitted_in_admitted by (apply Forall_replicate; lia).
  rewrite admitted_in_outside by (apply Forall_replicate; lia).
  rewrite length_replicate. lia.
Qed.

Lemma seam_admitted_after :
  admitted_in key (windowMs + 1) (1 + windowMs)
    (admitted key <$> seam_times windowMs max) = max.
Proof using windowMs_pos max_pos.
  unfold seam_times. rewrite fmap_cons. unfold admitted at 1.
  rewrite admitted_in_cons_skip by lia.
  rewrite fmap_app, admitted_in_app.
  rewrite admitted_in_outside by (apply Forall_replicate; lia).
  rewrite admitted_in_admitted by (apply Forall_replicate; lia).
  rewrite length_replicate. lia.
Qed.

End Seam.

(** C7, as stated, asks for a history with [2 * max] admissions of one key
    in an interval of length [windowMs]; no history of calls at
    non-decreasing times has one, whatever the positive configuration, even
    counting both end points of the interval. *)
Lemma no_interval_admits_twice_max :
  ¬ ∃ (windowMs max : Z) (key : string) (calls : list (string * Z)) (a : Z)
      (evs : list Event) (requests' : gmap string WindowCounter),
      0 < windowMs ∧ 1 ≤ max ∧
      Sorted Z.le (calls.*2) ∧
      run windowMs max new_requests calls = Ok (evs, requests') ∧
      admitted_in key a (a + windowMs) evs = 2 * max.
Proof.
  intros (windowMs & max & key & calls & a & evs & r & Hw & Hmax & Hs & Hr & Hn).
  apply Sorted_StronglySorted in Hs; [|intros x y z; lia].
  assert (Hnew : ∀ c, new_requests !! key = Some c → 1 ≤ count c).
  { intros c Hc. unfold new_requests in Hc. by rewrite lookup_empty in Hc. }
  pose proof (admitted_in_bound windowMs max key a Hmax calls
                new_requests r evs Hs Hnew Hr) as Hb.
  lia.
Qed.

(** C7, amended: for a limiter with positive [windowMs] and [max], and any
    history of calls at non-decreasing times, every closed interval
    [a, a + windowMs] contains at most [2 * max - 1] admitted requests of a
    key (so never more than [2 * max]); and the history [seam_calls] has
    exactly [2 * max - 1] of them in [1, 1 + windowMs]: [max - 1] up to the
    end of the first window at [windowMs] and [max] in the window opened
    at [windowMs + 1]. *)
Theorem admissions_in_rolling_interval :
  ∀ (windowMs max : Z) (key : string),
    0 < windowMs →
    1 ≤ max →
    (∀ (calls : list (string * Z)) (a : Z),
        Sorted Z.le (calls.*2) →
        ∃ evs requests',
          run windowMs max new_requests calls = Ok (evs, requests') ∧
          admitted_in key a (a + windowMs) evs ≤ 2 * max - 1) ∧
    (∃ evs requests',
        Sorted Z.le ((seam_calls windowMs max key).*2) ∧
        run windowMs max new_requests (seam_calls windowMs max key) = Ok (evs, requests') ∧
        admitted_in key 1 windowMs evs = max - 1 ∧
        admitted_in key (windowMs + 1) (1 + windowMs) evs = max ∧
        admitted_in key 1 (1 + windowMs) evs = 2 * max - 1).
Proof.
  intros windowMs max key Hw Hmax. split.
  - intros calls a Hs.
    destruct (run_total windowMs max calls new_requests) as (evs & r & Hr & _).
    exists evs, r. split; [done|].
    apply Sorted_StronglySorted in Hs; [|intros x y z; lia].
    eapply (admitted_in_bound windowMs max key a Hmax calls new_requests r evs Hs);
      [|done].
    intros c Hc. unfold new_requests in Hc. by rewrite lookup_empty in Hc.
  - destruct (seam_run windowMs max key Hw Hmax) as (r & Hr).
    exists (admitted key <$> seam_times windowMs max), r.
    split; [by apply seam_times_sorted|]. split; [done|].
    split; [by apply seam_admitted_before|].
    split; [by apply seam_admitted_after|].
    by apply seam_admitted.
Qed.

Lemma admissions_in_rolling_interval_witness :
  (∀ (calls : list (string * Z)) (a : Z),
      Sorted Z.le (calls.*2) →
      ∃ evs requests',
        run 1000 2 new_requests calls = Ok (evs, requests') ∧
        admitted_in "A" a (a + 1000) evs ≤ 2 * 2 - 1) ∧
  (∃ evs requests',
      Sorted Z.le ((seam_calls 1000 2 "A").*2) ∧
      run 1000 2 new_requests (seam_calls 1000 2 "A") = Ok (evs, requests') ∧
      admitted_in "A" 1 1000 evs = 2 - 1 ∧
      admitted_in "A" (1000 + 1) (1 + 1000) evs = 2 ∧
      admitted_in "A" 1 (1 + 1000) evs = 2 * 2 - 1).
Proof.
  apply (admissions_in_rolling_interval 1000 2 "A"%string); lia.
Defined.

(** The seam history for one second and two requests, run on the code. *)
Example seam_scenario :
  seam_calls 1000 2 "A" =
    [("A"%string, 0); ("A"%string, 1000); ("A"%string, 1001); ("A"%string, 1001)] ∧
  ∃ evs requests',
    run 1000 2 new_requests (seam_calls 1000 2 "A") = Ok (evs, requests') ∧
    verdicts evs = [ADMIT; ADMIT; ADMIT; ADMIT] ∧
    admitted_in "A" 1 1001 evs = 3 ∧
    admitted_in "A" 0 1000 evs = 2.
Proof.
  split; [reflexivity|]. eexists _, _.
  split; [vm_compute; reflexivity|]. split; [reflexivity|].
  split; vm_compute; reflexivity.
Qed.

(** ** The request-rate monitor *)

Section MonitorFacts.

Lemma monitor_step_log key now store :
  Monitor.log_of key (Monitor.rateLimitMonitor key now store).2 =
  filter (λ time, now - time < Monitor.windowMs) (Monitor.log_of key store) ++ [now].
Proof.
  unfold Monitor.rateLimitMonitor, Monitor.log_of. simpl.
  rewrite lookup_insert_eq. simpl. by destruct store.
Qed.

Lemma monitor_step_log_ne key key' now store :
  key ≠ key' →
  Monitor.log_of key' (Monitor.rateLimitMonitor key now store).2 =
  Monitor.log_of key' store.
Proof.
  intros Hne. unfold Monitor.rateLimitMonitor, Monitor.log_of. simpl.
  rewrite lookup_insert_ne by done. destruct store; [done|].
  by rewrite lookup_empty.
Qed.

Lemma monitor_step_alert key now store :
  (Monitor.rateLimitMonitor key now store).1 =
  let n := Z.of_nat (length (filter (λ time, now - time < Monitor.windowMs)
                               (Monitor.log_of key store))) in
  if n >=? Monitor.maxRequests then Some (Monitor.mkAlert key n) else None.
Proof. unfold Monitor.rateLimitMonitor, Monitor.log_of. simpl. by destruct store. Qed.

Lemma monitor_run_snoc calls : ∀ store key now,
  Monitor.run store (calls ++ [(key, now)]) =
  ((Monitor.run store calls).1 ++
     [(Monitor.rateLimitMonitor key now (Monitor.run store calls).2).1],
   (Monitor.rateLimitMonitor key now (Monitor.run store calls).2).2).
Proof.
  induction calls as [|[k t] calls IH]; intros store key now.
  - cbn [Monitor.run app fst snd].
    destruct (Monitor.rateLimitMonitor key now store); reflexivity.
  - cbn [Monitor.run app]. destruct (Monitor.rateLimitMonitor k t store) as [a s1].
    rewrite IH. destruct (Monitor.run s1 calls); reflexivity.
Qed.

Lemma monitor_run_snoc_store calls store key now :
  (Monitor.run store (calls ++ [(key, now)])).2 =
  (Monitor.rateLimitMonitor key now (Monitor.run store calls).2).2.
Proof. by rewrite monitor_run_snoc. Qed.

Lemma times_of_snoc key k t calls :
  Monitor.times_of key (calls ++ [(k, t)]) =
  Monitor.times_of key calls ++ (if decide (k = key) then [t] else []).
Proof.
  unfold Monitor.times_of. rewrite filter_app, fmap_app. f_equal.
  rewrite filter_cons, filter_nil. simpl. by case_decide.
Qed.

(** Pruning loses nothing that a later request could still count, as long
    as that request is not earlier than the pruning ones. *)
Lemma monitor_log_recent calls : ∀ key now,
  Forall (λ c : string * Z, c.2 ≤ now) calls →
  filter (λ time, now - time < Monitor.windowMs)
    (Monitor.log_of key (Monitor.run None calls).2) =
  Monitor.recent key now calls.
Proof.
  unfold Monitor.recent.
  induction calls as [|[k t] calls IH] using rev_ind; intros key now Hall.
  - done.
  - apply Forall_app in Hall as [Hall Ht].
    rewrite Forall_singleton in Ht. simpl in Ht.
    rewrite monitor_run_snoc_store, times_of_snoc.
    destruct (decide (k = key)) as [->|Hne].
    + rewrite monitor_step_log, !filter_app, list_filter_filter.
      rewrite <- (IH key now Hall). f_equal.
      apply list_filter_iff. intros x. lia.
    + rewrite monitor_step_log_ne by done.
      rewrite app_nil_r. by apply IH.
Qed.

Lemma monitor_log_length calls : ∀ key,
  (length (Monitor.log_of key (Monitor.run None calls).2) ≤
   length (Monitor.times_of key calls))%nat.
Proof.
  induction calls as [|[k t] calls IH] using rev_ind; intros key.
  - done.
  - rewrite monitor_run_snoc_store, times_of_snoc.
    destruct (decide (k = key)) as [->|Hne].
    + rewrite monitor_step_log, !length_app. simpl.
      pose proof (length_filter (λ time, t - time < Monitor.windowMs)
                    (Monitor.log_of key (Monitor.run None calls).2)).
      specialize (IH key). lia.
    + rewrite monitor_step_log_ne by done. rewrite app_nil_r. apply IH.
Qed.

End MonitorFacts.

(** X1: the monitor counts exactly the requests of the last 15 minutes.
    When no earlier request carries a later clock reading than the present
    one, the request of [key] at [now] is reported iff at least 100 earlier
    requests of [key] are less than [windowMs] old, the report carries their
    number, and the log kept for [key] is those timestamps followed by
    [now]. *)
Theorem monitor_counts_recent_requests :
  ∀ (calls : list (string * Z)) (key : string) (now : Z),
    Forall (λ c : string * Z, c.2 ≤ now) calls →
    let store := (Monitor.run None calls).2 in
    let n := Z.of_nat (length (Monitor.recent key now calls)) in
    (Monitor.rateLimitMonitor key now store).1 =
      (if n >=? 100 then Some (Monitor.mkAlert key n) else None) ∧
    Monitor.log_of key (Monitor.rateLimitMonitor key now store).2 =
      Monitor.recent key now calls ++ [now].
Proof.
  intros calls key now Hall store n. subst store n.
  rewrite monitor_step_alert, monitor_step_log. simpl.
  by rewrite (monitor_log_recent calls key now Hall).
Qed.

Lemma monitor_counts_recent_requests_witness :
  (Monitor.rateLimitMonitor "10.0.0.1" 900000
     (Monitor.run None [("10.0.0.1"%string, 0); ("10.0.0.1"%string, 1)]).2).1 = None ∧
  Monitor.log_of "10.0.0.1"
    (Monitor.rateLimitMonitor "10.0.0.1" 900000
       (Monitor.run None [("10.0.0.1"%string, 0); ("10.0.0.1"%string, 1)]).2).2 =
    [1; 900000].
Proof.
  apply (monitor_counts_recent_requests
           [("10.0.0.1"%string, 0); ("10.0.0.1"%string, 1)] "10.0.0.1"%string 900000).
  repeat constructor; simpl; lia.
Defined.

(** X2: the first 100 requests of an address are never reported, whatever
    their timestamps and whatever other addresses do. *)
Theorem monitor_silent_below_hundred :
  ∀ (calls : list (string * Z)) (key : string) (now : Z),
    (length (Monitor.times_of key calls) < 100)%nat →
    (Monitor.rateLimitMonitor key now (Monitor.run None calls).2).1 = None.
Proof.
  intros calls key now Hlen. rewrite monitor_step_alert. simpl.
  pose proof (monitor_log_length calls key) as Hl.
  pose proof (length_filter (λ time, now - time < Monitor.windowMs)
                (Monitor.log_of key (Monitor.run None calls).2)) as Hf.
  destruct (Z.geb_spec
              (Z.of_nat (length (filter (λ time, now - time < Monitor.windowMs)
                                   (Monitor.log_of key (Monitor.run None calls).2))))
              Monitor.maxRequests) as [Hge|]; [|done].
  unfold Monitor.maxRequests in Hge. lia.
Qed.

Lemma monitor_silent_below_hundred_witness :
  (Monitor.rateLimitMonitor "10.0.0.1" 5
     (Monitor.run None [("10.0.0.1"%string, 7); ("10.0.0.2"%string, 3)]).2).1 = None.
Proof.
  apply (monitor_silent_below_hundred
           [("10.0.0.1"%string, 7); ("10.0.0.2"%string, 3)] "10.0.0.1"%string 5).
  vm_compute. lia.
Defined.

(** ** [sanitizeInput] *)

Section SanitizeFacts.

Import Helpers.

Lemma replace_all_app c by_ s1 s2 :
  replace_all c by_ (s1 ++ s2) = replace_all c by_ s1 ++ replace_all c by_ s2.
Proof.
  induction s1 as [|a s1 IH]; [done|]. simpl.
  destruct (Ascii.eqb a c); rewrite IH; [by rewrite app_assoc|done].
Qed.

Lemma sanitize_unfold s :
  sanitizeInput (JsString s) =
  replace_all "/" (chars "&#x2F;")
    (replace_all "'" (chars "&#x27;")
       (replace_all double_quote (chars "&quot;")
          (replace_all ">" (chars "&gt;")
             (replace_all "<" (chars "&lt;") s)))).
Proof. by destruct s. Qed.

Lemma sanitize_string s :
  sanitizeInput (JsString s) = s ≫= entity.
Proof.
  assert (Hone : ∀ a, sanitizeInput (JsString [a]) = entity a).
  { intros [[] [] [] [] [] [] [] []]; reflexivity. }
  assert (Happ : ∀ s1 s2, sanitizeInput (JsString (s1 ++ s2)) =
                          sanitizeInput (JsString s1) ++ sanitizeInput (JsString s2)).
  { intros s1 s2. by rewrite !sanitize_unfold, !replace_all_app. }
  induction s as [|a s IH]; [done|].
  change (a :: s) with ([a] ++ s). by rewrite Happ, Hone, IH.
Qed.

Lemma sanitize_not_string v :
  is_string v = false → sanitizeInput v = [].
Proof.
  intros H. destruct v; try done; unfold sanitizeInput; simpl;
    by rewrite ?orb_true_r.
Qed.

Lemma entity_clean a : Forall (λ b, special b = false) (entity a).
Proof.
  apply Forall_forall. intros b Hb.
  destruct a as [[] [] [] [] [] [] [] []]; vm_compute in Hb;
    repeat (apply elem_of_cons in Hb as [->|Hb]; [by vm_compute|]);
    by apply elem_of_nil in Hb.
Qed.

Lemma entity_not_special a : special a = false → entity a = [a].
Proof. destruct a as [[] [] [] [] [] [] [] []]; vm_compute; congruence. Qed.

Lemma sanitize_clean_string s :
  Forall (λ b, special b = false) s → s ≫= entity = s.
Proof.
  induction 1 as [|a s Ha _ IH]; [done|].
  rewrite bind_cons, IH, entity_not_special; done.
Qed.

Lemma sanitize_output_clean s : Forall (λ b, special b = false) (s ≫= entity).
Proof.
  induction s as [|a s IH]; [constructor|].
  rewrite bind_cons. apply Forall_app. split; [apply entity_clean|done].
Qed.

End SanitizeFacts.

Section SanitizeClaims.

Import Helpers.

Lemma special_false a :
  special a = false ↔ a ∉ ["<"%char; ">"%char; double_quote; "'"%char; "/"%char].
Proof. unfold special. by rewrite bool_decide_eq_false. Qed.

Lemma sanitize_app s1 s2 :
  sanitizeInput (JsString (s1 ++ s2)) =
  sanitizeInput (JsString s1) ++ sanitizeInput (JsString s2).
Proof. by rewrite !sanitize_string, bind_app. Qed.

Lemma sanitize_twice s :
  sanitizeInput (JsString (sanitizeInput (JsString s))) = sanitizeInput (JsString s).
Proof.
  rewrite (sanitize_string (sanitizeInput _)), sanitize_string.
  apply sanitize_clean_string, sanitize_output_clean.
Qed.

Lemma sanitize_string_no_markup s :
  Forall (λ b, b ∉ ["<"%char; ">"%char; double_quote; "'"%char; "/"%char])
    (sanitizeInput (JsString s)).
Proof.
  rewrite sanitize_string.
  eapply Forall_impl; [apply sanitize_output_clean|].
  intros b. apply special_false.
Qed.

End SanitizeClaims.

(** X3: whatever value is passed, the result of [sanitizeInput] contains
    none of the characters [<], [>], double quote, single quote and [/]. *)
Theorem sanitizeInput_output_has_no_markup :
  ∀ (input : Helpers.JsValue),
    Forall (λ b, b ∉ ["<"%char; ">"%char; Helpers.double_quote; "'"%char; "/"%char])
      (Helpers.sanitizeInput input).
Proof.
  intros input.
  destruct (Helpers.is_string input) eqn:Hs.
  - destruct input; try done. apply sanitize_string_no_markup.
  - rewrite sanitize_not_string by done. constructor.
Qed.

(** X4: [sanitizeInput] returns a string unchanged exactly when the string
    contains none of the five characters it replaces. *)
Theorem sanitizeInput_fixes_plain_text :
  ∀ (s : list ascii),
    Helpers.sanitizeInput (Helpers.JsString s) = s ↔
    Forall (λ b, b ∉ ["<"%char; ">"%char; Helpers.double_quote; "'"%char; "/"%char]) s.
Proof.
  intros s. split.
  - intros Heq. rewrite <- Heq. apply sanitize_string_no_markup.
  - intros Hclean. rewrite sanitize_string. apply sanitize_clean_string.
    eapply Forall_impl; [exact Hclean|]. intros b. apply special_false.
Qed.

(** X5: sanitizing a part of a string beforehand does not change the
    result: the ampersand of an entity is not escaped again.  So
    [sanitizeInput] is idempotent, and it cannot be undone: the text [&lt;]
    and the character [<] give the same result. *)
Theorem sanitizeInput_absorbs_sanitized_parts :
  (∀ (s1 m s2 : list ascii),
      Helpers.sanitizeInput
        (Helpers.JsString (s1 ++ Helpers.sanitizeInput (Helpers.JsString m) ++ s2)) =
      Helpers.sanitizeInput (Helpers.JsString (s1 ++ m ++ s2))) ∧
  (∀ (input : Helpers.JsValue),
      Helpers.sanitizeInput (Helpers.JsString (Helpers.sanitizeInput input)) =
      Helpers.sanitizeInput input) ∧
  (∀ (s1 s2 : list ascii),
      s1 ++ Helpers.chars "&lt;" ++ s2 ≠ s1 ++ Helpers.chars "<" ++ s2 ∧
      Helpers.sanitizeInput (Helpers.JsString (s1 ++ Helpers.chars "&lt;" ++ s2)) =
      Helpers.sanitizeInput (Helpers.JsString (s1 ++ Helpers.chars "<" ++ s2))).
Proof.
  split; [|split].
  - intros s1 m s2. by rewrite !sanitize_app, sanitize_twice.
  - intros input. destruct (Helpers.is_string input) eqn:Hs.
    + destruct input; try done. apply sanitize_twice.
    + rewrite (sanitize_not_string input Hs). reflexivity.
  - intros s1 s2. split.
    + intros Heq. apply app_inv_head in Heq. discriminate.
    + by rewrite !sanitize_app.
Qed.

(** X6: [sanitizeInput] works piece by piece: the result for a
    concatenation is the concatenation of the results. *)
Theorem sanitizeInput_distributes_over_concat :
  ∀ (s1 s2 : list ascii),
    Helpers.sanitizeInput (Helpers.JsString (s1 ++ s2)) =
    Helpers.sanitizeInput (Helpers.JsString s1) ++
    Helpers.sanitizeInput (Helpers.JsString s2).
Proof. intros s1 s2. apply sanitize_app. Qed.

(** X7: the result is the empty string exactly for the inputs that are not
    a non-empty string (undefined, null, numbers, booleans, objects and the
    empty string). *)
Theorem sanitizeInput_empty_result :
  ∀ (input : Helpers.JsValue),
    Helpers.sanitizeInput input = [] ↔
    (∀ s, input = Helpers.JsString s → s = []).
Proof.
  intros input. split.
  - intros Hempty s ->. rewrite sanitize_string in Hempty.
    destruct s as [|a s]; [done|]. rewrite bind_cons in Hempty.
    apply app_eq_nil in Hempty as [Ha _].
    by destruct a as [[] [] [] [] [] [] [] []].
  - intros Hs. destruct input; try by rewrite sanitize_not_string.
    by rewrite (Hs s eq_refl).
Qed.

Lemma sanitizeInput_empty_result_witness :
  Helpers.sanitizeInput (Helpers.JsNumber 123) = [].
Proof.
  apply (proj2 (sanitizeInput_empty_result (Helpers.JsNumber 123))).
  intros s Hs. discriminate Hs.
Defined.

Lemma sanitizeInput_fixes_plain_text_witness :
  Helpers.sanitizeInput (Helpers.JsString (Helpers.chars "User123@example.com")) =
  Helpers.chars "User123@example.com".
Proof.
  apply (proj2 (sanitizeInput_fixes_plain_text (Helpers.chars "User123@example.com"))).
  apply (bool_decide_unpack _). vm_compute. exact I.
Defined.

(** ** [isValidObjectId] and [getPaginationOptions] *)

Section HelperFacts.

Import Helpers.

Lemma hex_digit_not_special a : is_hex_digit a = true → special a = false.
Proof. destruct a as [[] [] [] [] [] [] [] []]; vm_compute; congruence. Qed.

Lemma valid_object_id_string v :
  isValidObjectId v = true →
  ∃ s, v = JsString s ∧ length s = 24%nat ∧ Forall (λ a, is_hex_digit a = true) s.
Proof.
  unfold isValidObjectId. destruct v; simpl; rewrite ?orb_true_r; try done.
  destruct (bool_decide (s = [])); [done|]. simpl.
  intros [Hlen Hall]%andb_true_iff. exists s. split; [done|]. split.
  - by apply Nat.eqb_eq.
  - apply Forall_forall. intros a Ha.
    rewrite forallb_forall in Hall. apply Hall. by apply list_elem_of_In.
Qed.

End HelperFacts.

(** X8: an id accepted by [isValidObjectId] is a string of 24 characters
    that [sanitizeInput] returns unchanged. *)
Theorem valid_object_id_survives_sanitizeInput :
  ∀ (id : Helpers.JsValue),
    Helpers.isValidObjectId id = true →
    ∃ s, id = Helpers.JsString s ∧ length s = 24%nat ∧ Helpers.sanitizeInput id = s.
Proof.
  intros id Hvalid.
  destruct (valid_object_id_string id Hvalid) as (s & -> & Hlen & Hhex).
  exists s. split; [done|]. split; [done|].
  rewrite sanitize_string. apply sanitize_clean_string.
  eapply Forall_impl; [exact Hhex|]. apply hex_digit_not_special.
Qed.

Lemma valid_object_id_survives_sanitizeInput_witness :
  ∃ s, Helpers.JsString (Helpers.chars "507f1f77bcf86cd799439011") = Helpers.JsString s ∧
       length s = 24%nat ∧
       Helpers.sanitizeInput (Helpers.JsString (Helpers.chars "507f1f77bcf86cd799439011")) = s.
Proof.
  apply (valid_object_id_survives_sanitizeInput
           (Helpers.JsString (Helpers.chars "507f1f77bcf86cd799439011"))).
  vm_compute. reflexivity.
Defined.


(** X10: how the arguments are clamped.  A page of 1 or more is kept, any
    other (0, negative, NaN) becomes 1.  A limit between 1 and 100 is kept,
    a larger one becomes 100, a negative one becomes 1, and 0 or NaN becomes
    the default 10 (not 1). *)
Theorem pagination_clamps_arguments :
  ∀ (parsedPage parsedLimit : option Z),
    let r := Helpers.getPaginationOptions parsedPage parsedLimit in
    (∀ p, parsedPage = Some p → 1 ≤ p → Helpers.page r = p) ∧
    (∀ p, parsedPage = Some p → p ≤ 0 → Helpers.page r = 1) ∧
    (parsedPage = None → Helpers.page r = 1) ∧
    (∀ l, parsedLimit = Some l → 1 ≤ l ≤ 100 → Helpers.limit r = l) ∧
    (∀ l, parsedLimit = Some l → 100 ≤ l → Helpers.limit r = 100) ∧
    (∀ l, parsedLimit = Some l → l < 0 → Helpers.limit r = 1) ∧
    (parsedLimit = Some 0 ∨ parsedLimit = None → Helpers.limit r = 10).
Proof.
  intros parsedPage parsedLimit r. subst r.
  unfold Helpers.getPaginationOptions, Helpers.or_default. simpl.
  repeat split.
  - intros p -> Hp. destruct (Z.eqb_spec p 0); lia.
  - intros p -> Hp. destruct (Z.eqb_spec p 0); lia.
  - by intros ->.
  - intros l -> Hl. destruct (Z.eqb_spec l 0); lia.
  - intros l -> Hl. destruct (Z.eqb_spec l 0); lia.
  - intros l -> Hl. destruct (Z.eqb_spec l 0); lia.
  - by intros [-> | ->].
Qed.

Lemma pagination_clamps_arguments_witness :
  Helpers.page (Helpers.getPaginationOptions (Some 0) (Some (-5))) = 1 ∧
  Helpers.limit (Helpers.getPaginationOptions (Some 0) (Some (-5))) = 1 ∧
  Helpers.limit (Helpers.getPaginationOptions (Some 1) (Some 200)) = 100 ∧
  Helpers.limit (Helpers.getPaginationOptions None None) = 10.
Proof.
  pose proof (pagination_clamps_arguments (Some 0) (Some (-5)))
    as (_ & Hp & _ & _ & _ & Hl & _).
  pose proof (pagination_clamps_arguments (Some 1) (Some 200))
    as (_ & _ & _ & _ & Hmax & _ & _).
  pose proof (pagination_clamps_arguments None None)
    as (_ & _ & _ & _ & _ & _ & Hdef).
  split; [apply (Hp 0); [reflexivity|lia]|].
  split; [apply (Hl (-5)); [reflexivity|lia]|].
  split; [apply (Hmax 200); [reflexivity|lia]|].
  apply Hdef. by right.
Defined.



(** ** The two limiters at the end of a window *)

(** X12: the limiter and the monitor disagree about the instant exactly one
    window after a first request at [t0].  [rateLimit] (configured with the
    monitor's window and a quota of at least 2) still counts a request at
    that instant in the old window, as its second request; the monitor has
    forgotten the first request and keeps the new timestamp only. *)
Theorem limiter_and_monitor_differ_at_window_end :
  ∀ (key : string) (t0 max : Z),
    2 ≤ max →
    (∃ r1 r2,
        check Monitor.windowMs max key t0 new_requests = Ok (ADMIT, r1) ∧
        check Monitor.windowMs max key (t0 + Monitor.windowMs) r1 = Ok (ADMIT, r2) ∧
        r2 !! key = Some (mkCounter 2 (t0 + Monitor.windowMs))) ∧
    Monitor.log_of key
      (Monitor.rateLimitMonitor key (t0 + Monitor.windowMs)
         (Monitor.rateLimitMonitor key t0 None).2).2 = [t0 + Monitor.windowMs].
Proof.
  intros key t0 max Hmax. split.
  - eexists _, _. split; [by rewrite check_eq; unfold new_requests; rewrite lookup_empty|].
    split.
    + rewrite check_eq, lookup_insert_eq. simpl.
      destruct (Z.gtb_spec (t0 + Monitor.windowMs) (t0 + Monitor.windowMs)); [lia|].
      destruct (Z.geb_spec 1 max); [lia|]. reflexivity.
    + by rewrite lookup_insert_eq.
  - rewrite !monitor_step_log. simpl.
    rewrite filter_cons_False; [done|]. lia.
Qed.

Lemma limiter_and_monitor_differ_at_window_end_witness :
  (∃ r1 r2,
      check Monitor.windowMs 100 "10.0.0.1" 0 new_requests = Ok (ADMIT, r1) ∧
      check Monitor.windowMs 100 "10.0.0.1" (0 + Monitor.windowMs) r1 = Ok (ADMIT, r2) ∧
      r2 !! "10.0.0.1"%string = Some (mkCounter 2 (0 + Monitor.windowMs))) ∧
  Monitor.log_of "10.0.0.1"
    (Monitor.rateLimitMonitor "10.0.0.1" (0 + Monitor.windowMs)
       (Monitor.rateLimitMonitor "10.0.0.1" 0 None).2).2 = [0 + Monitor.windowMs].
Proof. apply (limiter_and_monitor_differ_at_window_end "10.0.0.1"%string 0 100). lia. Defined.

(** ** The authentication middleware *)

Section AuthFacts.

Import Helpers Middleware.

Lemma strip_prefix_app p s : strip_prefix p (p ++ s) = Some s.
Proof.
  induction p as [|a p IH]; [done|]. simpl. by rewrite Ascii.eqb_refl.
Qed.

Lemma strip_prefix_Some p : ∀ s rest, strip_prefix p s = Some rest → s = p ++ rest.
Proof.
  induction p as [|a p IH]; intros s rest; simpl.
  - by intros [= ->].
  - destruct s as [|b s]; [done|].
    destruct (Ascii.eqb_spec a b) as [->|]; [|done].
    intros H. by rewrite (IH _ _ H).
Qed.

Lemma replace_first_prefix pat by_ s : replace_first pat by_ (pat ++ s) = by_ ++ s.
Proof.
  destruct pat as [|a pat]; [by destruct s|].
  simpl. rewrite Ascii.eqb_refl. by rewrite strip_prefix_app.
Qed.

Lemma replace_first_absent pat by_ : ∀ s,
  (∀ s1 s2, s ≠ s1 ++ pat ++ s2) → replace_first pat by_ s = s.
Proof.
  induction s as [|a s IH]; intros Habs.
  - destruct pat as [|b pat]; [|done]. by destruct (Habs [] []).
  - assert (Hstrip : strip_prefix pat (a :: s) = None).
    { destruct (strip_prefix pat (a :: s)) as [rest|] eqn:Hs; [|done].
      apply strip_prefix_Some in Hs. by destruct (Habs [] rest). }
    assert (Hrest : replace_first pat by_ s = s).
    { apply IH. intros s1 s2 ->. by apply (Habs (a :: s1) s2). }
    destruct pat as [|b pat]; [done|].
    change (replace_first (b :: pat) by_ (a :: s)) with
      (match strip_prefix (b :: pat) (a :: s) with
       | Some rest => by_ ++ rest
       | None => a :: replace_first (b :: pat) by_ s
       end).
    by rewrite Hstrip, Hrest.
Qed.

End AuthFacts.

Section AuthClaims.

Import Helpers Middleware.

Lemma no_space_no_scheme (token : list ascii) :
  " "%char ∉ token → ∀ s1 s2, token ≠ s1 ++ chars "Bearer " ++ s2.
Proof.
  intros Hsp s1 s2 ->. apply Hsp.
  apply elem_of_app. right. apply elem_of_app. left.
  apply (bool_decide_unpack _). by vm_compute.
Qed.

Lemma authenticate_cases verify timestamp authorization :
  authenticate verify timestamp authorization =
  match authorization with
  | None =>
      Respond 401 (formatErrorResponse timestamp
                     "Access denied. No token provided." (Some "NO_TOKEN"%string) None)
  | Some header =>
      let token := replace_first (chars "Bearer ") [] header in
      if bool_decide (token = []) then
        Respond 401 (formatErrorResponse timestamp
                       "Access denied. No token provided." (Some "NO_TOKEN"%string) None)
      else
        match verify token with
        | Some decoded => Next (Some decoded)
        | None =>
            Respond 401 (formatErrorResponse timestamp
                           "Invalid token." (Some "INVALID_TOKEN"%string) None)
        end
  end.
Proof.
  unfold authenticate, bearer_token. destruct authorization as [header|]; [|done].
  cbn [fmap option_fmap option_map]. cbv zeta.
  destruct (replace_first (chars "Bearer ") [] header) as [|a token];
    [by rewrite bool_decide_true|by rewrite bool_decide_false].
Qed.

End AuthClaims.

(** X13: a route guarded by [authenticate] and [authorize(...roles)] reaches
    its handler exactly when the request has an Authorization header, what is
    left of it after removing the first ["Bearer "] is not empty and is
    accepted by [jwt.verify], and the role in the payload is one of [roles];
    the handler then sees the payload as [req.user]. *)
Theorem guarded_route_reaches_handler :
  ∀ (verify : list ascii → option Middleware.Payload) (timestamp : string)
    (roles : list string) (authorization : option (list ascii))
    (user : option Middleware.Payload),
    Middleware.guarded_route verify timestamp roles authorization = Middleware.Next user ↔
    ∃ header payload role,
      authorization = Some header ∧
      Middleware.replace_first (Helpers.chars "Bearer ") [] header ≠ [] ∧
      verify (Middleware.replace_first (Helpers.chars "Bearer ") [] header) = Some payload ∧
      Middleware.payload_role payload = Some role ∧
      role ∈ roles ∧
      user = Some payload.
Proof.
  intros verify timestamp roles authorization user.
  unfold Middleware.guarded_route. rewrite authenticate_cases.
  destruct authorization as [header|]; simpl.
  - case_bool_decide as Hempty.
    + split; [done|]. intros (h & p & r & [= <-] & Hne & _). done.
    + destruct (verify _) as [payload|] eqn:Hv; simpl.
      * destruct (Middleware.payload_role payload) as [r|] eqn:Hr; simpl.
        -- case_bool_decide as Hin; simpl.
           ++ split.
              ** intros [= <-]. by exists header, payload, r.
              ** intros (h & p & r' & [= <-] & _ & Hv' & Hr' & _ & ->).
                 rewrite Hv in Hv'. by injection Hv' as <-.
           ++ split; [done|].
              intros (h & p & r' & [= <-] & _ & Hv' & Hr' & Hin' & _).
              rewrite Hv in Hv'. injection Hv' as <-.
              rewrite Hr in Hr'. injection Hr' as <-. done.
        -- split; [done|].
           intros (h & p & r' & [= <-] & _ & Hv' & Hr' & _).
           rewrite Hv in Hv'. injection Hv' as <-. by rewrite Hr in Hr'.
      * split; [done|].
        intros (h & p & r' & [= <-] & _ & Hv' & _). by rewrite Hv in Hv'.
  - split; [done|]. by intros (h & p & r & [=] & _).
Qed.

Lemma guarded_route_reaches_handler_witness :
  Middleware.guarded_route
    (λ token, if bool_decide (token = Helpers.chars "abc.def.ghi")
              then Some (Middleware.mkPayload "42" "a@b.c" (Some "admin"%string))
              else None)
    "2026-01-01T00:00:00.000Z" ["admin"%string]
    (Some (Helpers.chars "Bearer abc.def.ghi")) =
  Middleware.Next (Some (Middleware.mkPayload "42" "a@b.c" (Some "admin"%string))).
Proof.
  apply (proj2 (guarded_route_reaches_handler _ _ _ _ _)).
  exists (Helpers.chars "Bearer abc.def.ghi"),
    (Middleware.mkPayload "42" "a@b.c" (Some "admin"%string)), "admin"%string.
  split; [reflexivity|]. split; [by vm_compute|]. split; [by vm_compute|].
  split; [reflexivity|]. split; [|reflexivity].
  apply (bool_decide_unpack _). by vm_compute.
Defined.

(** X14: when the guarded route does not reach its handler it answers 401 or
    403 with [success = false]; it answers 403 only for a request whose
    token was accepted by [jwt.verify], so a caller without a valid token
    cannot learn anything about roles. *)
Theorem guarded_route_refusals :
  ∀ (verify : list ascii → option Middleware.Payload) (timestamp : string)
    (roles : list string) (authorization : option (list ascii))
    (status : Z) (body : Middleware.ErrorResponse),
    Middleware.guarded_route verify timestamp roles authorization =
      Middleware.Respond status body →
    Middleware.success body = false ∧
    (status = 401 ∨ status = 403) ∧
    (status = 403 →
     ∃ header payload,
       authorization = Some header ∧
       verify (Middleware.replace_first (Helpers.chars "Bearer ") [] header) = Some payload ∧
       ∀ role, Middleware.payload_role payload = Some role → role ∉ roles).
Proof.
  intros verify timestamp roles authorization status body.
  unfold Middleware.guarded_route. rewrite authenticate_cases.
  destruct authorization as [header|]; simpl.
  - case_bool_decide as Hempty.
    + intros [= <- <-]. split; [done|]. split; [by left|]. done.
    + destruct (verify _) as [payload|] eqn:Hv; simpl.
      * destruct (Middleware.payload_role payload) as [r|] eqn:Hr; simpl.
        -- case_bool_decide as Hin; simpl; [done|].
           intros [= <- <-]. split; [done|]. split; [by right|].
           intros _. exists header, payload. split; [done|]. split; [done|].
           intros role Hrole. rewrite Hr in Hrole. by injection Hrole as <-.
        -- intros [= <- <-]. split; [done|]. split; [by right|].
           intros _. exists header, payload. split; [done|]. split; [done|].
           intros role Hrole. by rewrite Hr in Hrole.
      * intros [= <- <-]. split; [done|]. split; [by left|]. done.
  - intros [= <- <-]. split; [done|]. split; [by left|]. done.
Qed.

Lemma guarded_route_refusals_witness :
  Middleware.success
    (Middleware.formatErrorResponse "2026-01-01T00:00:00.000Z"
       "Access denied. No token provided." (Some "NO_TOKEN"%string) None) = false ∧
  (401 = 401 ∨ 401 = 403) ∧
  (401 = 403 →
   ∃ header payload,
     None = Some header ∧
     (λ _ : list ascii, None)
       (Middleware.replace_first (Helpers.chars "Bearer ") [] header) = Some payload ∧
     ∀ role, Middleware.payload_role payload = Some role → role ∉ ["admin"%string]).
Proof.
  apply (guarded_route_refusals (λ _, None) "2026-01-01T00:00:00.000Z"
           ["admin"%string] None 401).
  reflexivity.
Defined.

(** X15: [authenticate] does not require the Bearer scheme.  A header that
    carries a token without spaces on its own is treated exactly like the
    header ["Bearer "] followed by that token. *)
Theorem authenticate_accepts_bare_token :
  ∀ (verify : list ascii → option Middleware.Payload) (timestamp : string)
    (token : list ascii),
    " "%char ∉ token →
    Middleware.authenticate verify timestamp (Some token) =
    Middleware.authenticate verify timestamp (Some (Helpers.chars "Bearer " ++ token)).
Proof.
  intros verify timestamp token Hsp.
  rewrite !authenticate_cases. cbv zeta.
  rewrite replace_first_prefix.
  by rewrite (replace_first_absent _ _ token (no_space_no_scheme token Hsp)).
Qed.

Lemma authenticate_accepts_bare_token_witness :
  Middleware.authenticate (λ _, None) "2026-01-01T00:00:00.000Z"
    (Some (Helpers.chars "abc.def.ghi")) =
  Middleware.authenticate (λ _, None) "2026-01-01T00:00:00.000Z"
    (Some (Helpers.chars "Bearer " ++ Helpers.chars "abc.def.ghi")).
Proof.
  apply (authenticate_accepts_bare_token (λ _, None) "2026-01-01T00:00:00.000Z"
           (Helpers.chars "abc.def.ghi")).
  apply (bool_decide_unpack _). by vm_compute.
Defined.





(** ** More about [rateLimit]: what the map keeps *)

Section LimiterState.

Variables windowMs max : Z.

Lemma check_dom key now (requests requests' : gmap string WindowCounter) v :
  check windowMs max key now requests = Ok (v, requests') →
  dom requests' = {[key]} ∪ dom requests.
Proof.
  rewrite check_eq. destruct (requests !! key) as [c|] eqn:Hk.
  - assert (Hin : key ∈ dom requests) by (apply elem_of_dom; eauto).
    destruct (now >? resetTime c).
    { intros [= <- <-]. rewrite dom_insert_L. set_solver. }
    destruct (count c >=? max); intros [= <- <-].
    + set_solver.
    + rewrite dom_insert_L. set_solver.
  - intros [= <- <-]. by rewrite dom_insert_L.
Qed.

Lemma check_resetTime key now (requests requests' : gmap string WindowCounter) v c :
  0 ≤ windowMs →
  check windowMs max key now requests = Ok (v, requests') →
  requests !! key = Some c →
  ∃ c', requests' !! key = Some c' ∧ resetTime c ≤ resetTime c' ∧
        (now ≤ resetTime c → resetTime c' = resetTime c).
Proof.
  intros Hw Hc Hk. apply check_lookup_eq in Hc as [_ Hk'].
  rewrite Hk in Hk'. unfold window_step in Hk'.
  eexists. split; [exact Hk'|].
  destruct (Z.gtb_spec now (resetTime c)); simpl; [lia|].
  destruct (count c >=? max); simpl; lia.
Qed.

End LimiterState.

(** X18: the limiter never forgets a key: after any history the keys of the
    map are those it had before together with every key that made a
    request, whether admitted or rejected. *)
Theorem limiter_keeps_every_key :
  ∀ (windowMs max : Z) (calls : list (string * Z))
    (requests : gmap string WindowCounter),
    ∃ evs requests',
      run windowMs max requests calls = Ok (evs, requests') ∧
      dom requests' = dom requests ∪ list_to_set (calls.*1).
Proof.
  intros windowMs max calls.
  induction calls as [|[k t] calls IH]; intros requests.
  - exists [], requests. split; [done|]. set_solver.
  - destruct (check_total windowMs max k t requests) as (v & r1 & Hc).
    destruct (IH r1) as (evs & r2 & Hr & Hdom).
    exists (mkEvent k t v :: evs), r2. split; [by eapply run_cons|].
    rewrite Hdom, (check_dom _ _ _ _ _ _ _ Hc). set_solver.
Qed.

(** X19: with a window that is not negative, the [resetTime] stored for a
    key never moves backwards, whatever the order of the clock readings. *)
Theorem limiter_resetTime_never_decreases :
  ∀ (windowMs max : Z) (key : string) (calls : list (string * Z))
    (requests : gmap string WindowCounter) (c : WindowCounter),
    0 ≤ windowMs →
    requests !! key = Some c →
    ∃ evs requests' c',
      run windowMs max requests calls = Ok (evs, requests') ∧
      requests' !! key = Some c' ∧
      resetTime c ≤ resetTime c'.
Proof.
  intros windowMs max key calls.
  induction calls as [|[k t] calls IH]; intros requests c Hw Hk.
  - exists [], requests, c. by split.
  - destruct (check_total windowMs max k t requests) as (v & r1 & Hc).
    assert (∃ c1, r1 !! key = Some c1 ∧ resetTime c ≤ resetTime c1)
      as (c1 & Hk1 & Hle).
    { destruct (decide (k = key)) as [->|Hne].
      - destruct (check_resetTime _ _ _ _ _ _ _ _ Hw Hc Hk) as (c1 & ? & ? & _).
        by exists c1.
      - exists c. split; [|done].
        by rewrite (check_lookup_ne _ _ _ _ _ _ _ _ Hne Hc). }
    destruct (IH r1 c1 Hw Hk1) as (evs & r2 & c2 & Hr & Hk2 & Hle2).
    exists (mkEvent k t v :: evs), r2, c2.
    split; [by eapply run_cons|]. split; [done|lia].
Qed.

Lemma limiter_resetTime_never_decreases_witness :
  ∃ evs requests' c',
    run 1000 2 (<["A"%string := mkCounter 2 1000]> new_requests)
      [("A"%string, 5000); ("A"%string, 10)] = Ok (evs, requests') ∧
    requests' !! "A"%string = Some c' ∧
    resetTime (mkCounter 2 1000) ≤ resetTime c'.
Proof.
  apply (limiter_resetTime_never_decreases 1000 2 "A"%string
           [("A"%string, 5000); ("A"%string, 10)]
           (<["A"%string := mkCounter 2 1000]> new_requests) (mkCounter 2 1000)).
  - lia.
  - reflexivity.
Defined.

(** X20: requests made while the window lasts, rejected or not, do not
    prolong it.  From a map where [key] has a counter, after any history in
    which the requests of [key] come no later than its [resetTime], that
    [resetTime] is unchanged and the first request of [key] after it is
    admitted with a fresh counter. *)
Theorem limiter_window_not_prolonged :
  ∀ (windowMs max : Z) (key : string) (calls : list (string * Z))
    (requests : gmap string WindowCounter) (c : WindowCounter),
    0 ≤ windowMs →
    requests !! key = Some c →
    Forall (λ call : string * Z, call.1 = key → call.2 ≤ resetTime c) calls →
    ∃ evs requests' c',
      run windowMs max requests calls = Ok (evs, requests') ∧
      requests' !! key = Some c' ∧
      resetTime c' = resetTime c ∧
      ∀ t, resetTime c < t →
           check windowMs max key t requests' =
             Ok (ADMIT, <[key := mkCounter 1 (t + windowMs)]> requests').
Proof.
  intros windowMs max key calls.
  induction calls as [|[k t] calls IH]; intros requests c Hw Hk Hall.
  - exists [], requests, c. split; [done|]. split; [done|]. split; [done|].
    intros t Ht. apply check_opens. unfold opens_window. by rewrite Hk.
  - apply Forall_cons in Hall as [Ht Hall]. simpl in Ht.
    destruct (check_total windowMs max k t requests) as (v & r1 & Hc).
    assert (∃ c1, r1 !! key = Some c1 ∧ resetTime c1 = resetTime c)
      as (c1 & Hk1 & Heq).
    { destruct (decide (k = key)) as [->|Hne].
      - destruct (check_resetTime _ _ _ _ _ _ _ _ Hw Hc Hk) as (c1 & ? & _ & Hsame).
        exists c1. split; [done|]. apply Hsame. by apply Ht.
      - exists c. split; [|done].
        by rewrite (check_lookup_ne _ _ _ _ _ _ _ _ Hne Hc). }
    rewrite <- Heq in Hall.
    destruct (IH r1 c1 Hw Hk1 Hall) as (evs & r2 & c2 & Hr & Hk2 & Heq2 & Hnext).
    exists (mkEvent k t v :: evs), r2, c2.
    split; [by eapply run_cons|]. split; [done|]. split; [congruence|].
    intros t' Ht'. apply Hnext. lia.
Qed.

Lemma limiter_window_not_prolonged_witness :
  ∃ evs requests' c',
    run 1000 2 (<["A"%string := mkCounter 2 1000]> new_requests)
      [("A"%string, 500); ("A"%string, 1000)] = Ok (evs, requests') ∧
    requests' !! "A"%string = Some c' ∧
    resetTime c' = resetTime (mkCounter 2 1000) ∧
    ∀ t, resetTime (mkCounter 2 1000) < t →
         check 1000 2 "A" t requests' =
           Ok (ADMIT, <["A"%string := mkCounter 1 (t + 1000)]> requests').
Proof.
  apply (limiter_window_not_prolonged 1000 2 "A"%string
           [("A"%string, 500); ("A"%string, 1000)]
           (<["A"%string := mkCounter 2 1000]> new_requests) (mkCounter 2 1000)).
  - lia.
  - reflexivity.
  - repeat constructor; simpl; lia.
Defined.

(** ** The security monitor *)

Section RegExpFacts.

Import Helpers Security.

Lemma literal_at_spec ic lit : ∀ s,
  literal_at ic lit s = true ↔
  ∃ m rest, s = m ++ rest ∧ Forall2 (λ p c, char_matches ic p c = true) lit m.
Proof.
  induction lit as [|p lit IH]; intros s; simpl.
  - split; [|done]. intros _. exists [], s. by split; [|constructor].
  - destruct s as [|c s].
    + split; [done|]. intros (m & rest & Heq & Hm).
      apply Forall2_cons_inv_l in Hm as (c & m' & _ & _ & ->). done.
    + rewrite andb_true_iff, IH. split.
      * intros [Hc (m & rest & -> & Hm)]. exists (c :: m), rest.
        split; [done|]. by constructor.
      * intros (m & rest & Heq & Hm).
        apply Forall2_cons_inv_l in Hm as (c' & m' & Hc & Hm & ->).
        injection Heq as <- ->. split; [done|]. by exists m', rest.
Qed.

Lemma match_here_Some ic alts s len :
  match_here ic alts s = Some len →
  ∃ lit, lit ∈ alts ∧ literal_at ic lit s = true ∧ len = length lit.
Proof.
  induction alts as [|lit alts IH]; simpl; [done|].
  destruct (literal_at ic lit s) eqn:Hlit.
  - intros [= <-]. exists lit. split; [left|done].
  - intros H. destruct (IH H) as (lit' & Hin & Hm & Hlen).
    exists lit'. split; [by right|done].
Qed.

Lemma match_here_None ic alts s :
  match_here ic alts s = None →
  ∀ lit, lit ∈ alts → literal_at ic lit s = false.
Proof.
  induction alts as [|lit alts IH]; simpl.
  - intros _ lit' Hin. by apply elem_of_nil in Hin.
  - destruct (literal_at ic lit s) eqn:Hlit; [done|].
    intros H lit' [->|Hin]%elem_of_cons; [done|]. by apply IH.
Qed.

Lemma search_Some ic alts : ∀ s start len,
  search ic alts s = Some (start, len) →
  ∃ lit, lit ∈ alts ∧ literal_at ic lit (drop start s) = true ∧
         len = length lit ∧ (start ≤ length s)%nat.
Proof.
  induction s as [|c s IH]; intros start len; simpl.
  - destruct (match_here ic alts []) as [l|] eqn:Hm; [|done].
    intros [= <- <-]. destruct (match_here_Some _ _ _ _ Hm) as (lit & ? & ? & ?).
    exists lit. by rewrite drop_0.
  - destruct (match_here ic alts (c :: s)) as [l|] eqn:Hm.
    + intros [= <- <-]. destruct (match_here_Some _ _ _ _ Hm) as (lit & ? & ? & ?).
      exists lit. rewrite drop_0. repeat split; [done..|simpl; lia].
    + destruct (search ic alts s) as [[i l]|] eqn:Hs; [|done].
      simpl. intros [= <- <-].
      destruct (IH i l eq_refl) as (lit & ? & ? & ? & ?).
      exists lit. repeat split; [done..|simpl; lia].
Qed.

Lemma search_None ic alts : ∀ s,
  search ic alts s = None →
  ∀ lit before rest, lit ∈ alts → s = before ++ rest → literal_at ic lit rest = false.
Proof.
  induction s as [|c s IH]; simpl.
  - destruct (match_here ic alts []) as [l|] eqn:Hm; [done|].
    intros _ lit before rest Hin Heq. symmetry in Heq.
    apply app_eq_nil in Heq as [_ ->]. by eapply match_here_None.
  - destruct (match_here ic alts (c :: s)) as [l|] eqn:Hm; [done|].
    destruct (search ic alts s) as [m|] eqn:Hs; [done|].
    intros _ lit before rest Hin Heq.
    destruct before as [|b before].
    + simpl in Heq. subst rest. by eapply match_here_None.
    + injection Heq as _ ->. by eapply (IH eq_refl lit before rest).
Qed.

Lemma occurs_literal_at ic lit s :
  occurs ic lit s ↔ ∃ before rest, s = before ++ rest ∧ literal_at ic lit rest = true.
Proof.
  unfold occurs. split.
  - intros (before & m & after & -> & Hm). exists before, (m ++ after).
    split; [done|]. apply literal_at_spec. by exists m, after.
  - intros (before & rest & -> & Hlit).
    apply literal_at_spec in Hlit as (m & after & -> & Hm).
    by exists before, m, after.
Qed.

Lemma search_is_Some ic alts s :
  is_Some (search ic alts s) ↔ ∃ lit, lit ∈ alts ∧ occurs ic lit s.
Proof.
  split.
  - intros [[start len] Hs].
    destruct (search_Some _ _ _ _ _ Hs) as (lit & Hin & Hlit & _ & _).
    exists lit. split; [done|]. apply occurs_literal_at.
    exists (take start s), (drop start s). by rewrite take_drop.
  - intros (lit & Hin & Hocc).
    apply occurs_literal_at in Hocc as (before & rest & Heq & Hlit).
    destruct (search ic alts s) as [m|] eqn:Hs; [done|].
    by rewrite (search_None _ _ _ Hs lit before rest Hin Heq) in Hlit.
Qed.

Lemma test_same_pattern r s : same_pattern r (test r s).2.
Proof.
  unfold test. destruct (length s <? lastIndex r)%nat; [done|].
  by destruct (search _ _ _) as [[? ?]|].
Qed.

Lemma test_false r s :
  (test r s).1 = false →
  (test r s).2 = mkRegExp (alternatives r) (ignoreCase r) 0.
Proof.
  unfold test. destruct (length s <? lastIndex r)%nat; [done|].
  by destruct (search _ _ _) as [[? ?]|].
Qed.

Lemma test_true_occurs r s :
  (test r s).1 = true → ∃ lit, lit ∈ alternatives r ∧ occurs (ignoreCase r) lit s.
Proof.
  unfold test. destruct (length s <? lastIndex r)%nat; [done|].
  destruct (search _ _ _) as [[start len]|] eqn:Hs; [|done]. intros _.
  assert (His : is_Some (search (ignoreCase r) (alternatives r) (drop (lastIndex r) s)))
    by eauto.
  apply search_is_Some in His as (lit & Hin & before & m & after & Heq & Hm).
  exists lit. split; [done|].
  exists (take (lastIndex r) s ++ before), m, after. split; [|done].
  by rewrite <- app_assoc, <- Heq, take_drop.
Qed.

Lemma test_fresh r s :
  lastIndex r = 0%nat →
  (test r s).1 = true ↔ ∃ lit, lit ∈ alternatives r ∧ occurs (ignoreCase r) lit s.
Proof.
  intros Hfresh. split; [apply test_true_occurs|].
  intros Hocc. apply search_is_Some in Hocc as [[start len] Hs].
  unfold test. rewrite Hfresh, drop_0, Hs. simpl.
  by destruct (length s <? 0)%nat eqn:Hlt; [apply Nat.ltb_lt in Hlt; lia|].
Qed.

Lemma some_test_same_pattern ps : ∀ s, Forall2 same_pattern ps (some_test ps s).2.
Proof.
  induction ps as [|r ps IH]; intros s; simpl; [constructor|].
  pose proof (test_same_pattern r s) as Hr.
  destruct (test r s) as [[] r']; simpl in *.
  - constructor; [done|]. apply Forall2_same_length_lookup_2; [done|].
    intros i x y Hx Hy. rewrite Hx in Hy. by injection Hy as <-.
  - specialize (IH s). destruct (some_test ps s) as [found rest]. by constructor.
Qed.

Lemma some_test_true_occurs ps : ∀ s,
  (some_test ps s).1 = true →
  ∃ r lit, r ∈ ps ∧ lit ∈ alternatives r ∧ occurs (ignoreCase r) lit s.
Proof.
  induction ps as [|r ps IH]; intros s; simpl; [done|].
  pose proof (test_true_occurs r s) as Hr.
  destruct (test r s) as [[] r']; simpl in *.
  - intros _. destruct (Hr eq_refl) as (lit & ? & ?). exists r, lit.
    split; [left|done].
  - specialize (IH s). destruct (some_test ps s) as [found rest]. simpl in *.
    intros Hf. destruct (IH Hf) as (r0 & lit & ? & ? & ?).
    exists r0, lit. split; [by right|done].
Qed.

Lemma some_test_fresh ps : ∀ s,
  Forall (λ r, lastIndex r = 0%nat) ps →
  ((some_test ps s).1 = true ↔
   ∃ r lit, r ∈ ps ∧ lit ∈ alternatives r ∧ occurs (ignoreCase r) lit s) ∧
  ((some_test ps s).1 = false → (some_test ps s).2 = ps).
Proof.
  induction ps as [|r ps IH]; intros s Hfresh; simpl.
  - split; [|done]. split; [done|].
    intros (r & lit & Hin & _). by apply elem_of_nil in Hin.
  - apply Forall_cons in Hfresh as [Hr Hps].
    pose proof (test_fresh r s Hr) as Htest.
    pose proof (test_false r s) as Hfalse.
    destruct (IH s Hps) as [IHiff IHsame].
    destruct (test r s) as [[] r']; simpl in *.
    + split; [|done]. split; [|done]. intros _.
      destruct (proj1 Htest eq_refl) as (lit & ? & ?).
      exists r, lit. split; [left|done].
    + destruct (some_test ps s) as [found rest]. simpl in *. split.
      * rewrite IHiff. split.
        -- intros (r0 & lit & ? & ? & ?). exists r0, lit. split; [by right|done].
        -- intros (r0 & lit & [->|Hin]%elem_of_cons & Hlit & Hocc).
           ++ assert (false = true) by (apply Htest; eauto). done.
           ++ by exists r0, lit.
      * intros Hf. rewrite (IHsame Hf), (Hfalse eq_refl).
        destruct r as [alts ic li]. simpl in *. by subst li.
Qed.

Lemma suspiciousPatterns_fresh :
  Forall (λ r, lastIndex r = 0%nat) suspiciousPatterns.
Proof. by repeat constructor. Qed.

Lemma url_check_iff url :
  (some_test suspiciousPatterns url).1 = true ↔ suspicious url.
Proof. apply (some_test_fresh _ url suspiciousPatterns_fresh). Qed.

Lemma body_check_sound url bodyStr :
  (some_test (some_test suspiciousPatterns url).2 bodyStr).1 = true →
  suspicious bodyStr.
Proof.
  intros Hb. apply some_test_true_occurs in Hb as (r1 & lit & Hin & Hlit & Hocc).
  pose proof (some_test_same_pattern suspiciousPatterns url) as Hshape.
  apply list_elem_of_lookup in Hin as [i Hi].
  destruct (Forall2_lookup_r _ _ _ _ _ Hshape Hi) as (r & Hr & Halts & Hic).
  exists r, lit. split; [by eapply list_elem_of_lookup_2|].
  split; [by rewrite Halts|by rewrite Hic].
Qed.

Lemma body_check_clean_url url bodyStr :
  ¬ suspicious url →
  (some_test (some_test suspiciousPatterns url).2 bodyStr).1 = true ↔
  suspicious bodyStr.
Proof.
  intros Hclean.
  assert (Hurl : (some_test suspiciousPatterns url).1 = false).
  { destruct ((some_test suspiciousPatterns url).1) eqn:Hu; [|done].
    by apply url_check_iff in Hu. }
  rewrite (proj2 (some_test_fresh _ url suspiciousPatterns_fresh) Hurl).
  apply url_check_iff.
Qed.

End RegExpFacts.

Section SecurityFacts.

Import Helpers Security.

Lemma securityMonitor_events url method body statusCode :
  securityMonitor url method body statusCode =
  (if (some_test suspiciousPatterns url).1 then [SuspiciousURLPattern] else []) ++
  match body with
  | Some bodyStr =>
      if (some_test (some_test suspiciousPatterns url).2 bodyStr).1
      then [SuspiciousRequestBody] else []
  | None => []
  end ++
  (if includes (chars "/auth/login") url && bool_decide (method = chars "POST")
   then (if statusCode =? 401 then [FailedLoginAttempt] else [])
   else []).
Proof.
  unfold securityMonitor.
  by destruct (some_test suspiciousPatterns url) as [urlFound patterns1].
Qed.

Lemma url_event_reported url method body statusCode :
  SuspiciousURLPattern ∈ securityMonitor url method body statusCode ↔
  (some_test suspiciousPatterns url).1 = true.
Proof.
  rewrite securityMonitor_events, !elem_of_app.
  destruct ((some_test suspiciousPatterns url).1).
  - split; [done|]. intros _. left. by left.
  - split; [|done]. intros [Hin|[Hin|Hin]].
    + by apply elem_of_nil in Hin.
    + destruct body as [b|]; [|by apply elem_of_nil in Hin].
      destruct (some_test _ b).1; [|by apply elem_of_nil in Hin].
      by apply list_elem_of_singleton in Hin.
    + destruct (_ && _); [|by apply elem_of_nil in Hin].
      destruct (statusCode =? 401); [|by apply elem_of_nil in Hin].
      by apply list_elem_of_singleton in Hin.
Qed.

Lemma body_event_reported url method body statusCode :
  SuspiciousRequestBody ∈ securityMonitor url method body statusCode ↔
  ∃ bodyStr, body = Some bodyStr ∧
             (some_test (some_test suspiciousPatterns url).2 bodyStr).1 = true.
Proof.
  rewrite securityMonitor_events, !elem_of_app. split.
  - intros [Hin|[Hin|Hin]].
    + destruct (some_test suspiciousPatterns url).1;
        [by apply list_elem_of_singleton in Hin|by apply elem_of_nil in Hin].
    + destruct body as [b|]; [|by apply elem_of_nil in Hin].
      exists b. split; [done|].
      destruct (some_test _ b).1; [done|by apply elem_of_nil in Hin].
    + destruct (_ && _); [|by apply elem_of_nil in Hin].
      destruct (statusCode =? 401); [|by apply elem_of_nil in Hin].
      by apply list_elem_of_singleton in Hin.
  - intros (b & -> & Hb). right. left. rewrite Hb. by left.
Qed.

Lemma login_event_reported url method body statusCode :
  FailedLoginAttempt ∈ securityMonitor url method body statusCode ↔
  includes (chars "/auth/login") url = true ∧ method = chars "POST" ∧ statusCode = 401.
Proof.
  rewrite securityMonitor_events, !elem_of_app. split.
  - intros [Hin|[Hin|Hin]].
    + destruct (some_test suspiciousPatterns url).1;
        [by apply list_elem_of_singleton in Hin|by apply elem_of_nil in Hin].
    + destruct body as [b|]; [|by apply elem_of_nil in Hin].
      destruct (some_test _ b).1;
        [by apply list_elem_of_singleton in Hin|by apply elem_of_nil in Hin].
    + destruct (includes _ url); [|by apply elem_of_nil in Hin]. simpl in Hin.
      case_bool_decide; [|by apply elem_of_nil in Hin].
      destruct (Z.eqb_spec statusCode 401); [done|by apply elem_of_nil in Hin].
  - intros (Hinc & -> & ->). right. right. rewrite Hinc.
    rewrite bool_decide_true by done. by left.
Qed.

Lemma includes_occurs lit s : includes lit s = true ↔ occurs false lit s.
Proof.
  unfold includes. rewrite bool_decide_eq_true, search_is_Some. split.
  - by intros (l & ->%list_elem_of_singleton & Hocc).
  - intros Hocc. exists lit. split; [by left|done].
Qed.

Lemma quote_is_suspicious before after :
  suspicious (before ++ double_quote :: after).
Proof.
  exists (mkRegExp [chars "%27"; chars "%22"; chars "'"; [double_quote]] false 0),
    [double_quote].
  split; [|split].
  - unfold suspiciousPatterns. do 3 right. left.
  - simpl. do 3 right. left.
  - exists before, [double_quote], after. split; [done|]. by repeat constructor.
Qed.

Lemma stale_pattern_misses r s :
  (length s < lastIndex r)%nat → (test r s).1 = false.
Proof.
  intros Hlt. unfold test. apply Nat.ltb_lt in Hlt. by rewrite Hlt.
Qed.

End SecurityFacts.

(** X21: the event 'Suspicious URL Pattern' is logged for a request exactly
    when its URL contains one of the texts of the four expressions (the
    script tags and the SQL words in any letter case). *)
Theorem security_url_reported :
  ∀ (url method : list ascii) (body : option (list ascii)) (statusCode : Z),
    Security.SuspiciousURLPattern ∈ Security.securityMonitor url method body statusCode ↔
    Security.suspicious url.
Proof.
  intros url method body statusCode.
  rewrite url_event_reported. apply url_check_iff.
Qed.

Lemma security_url_reported_witness :
  Security.SuspiciousURLPattern ∈
    Security.securityMonitor (Helpers.chars "/api/users?sort=Created")
      (Helpers.chars "GET") None 200.
Proof.
  apply (proj2 (security_url_reported (Helpers.chars "/api/users?sort=Created")
                  (Helpers.chars "GET") None 200)).
  exists (Security.mkRegExp
            [Helpers.chars "union"; Helpers.chars "select"; Helpers.chars "insert";
             Helpers.chars "delete"; Helpers.chars "drop"; Helpers.chars "create";
             Helpers.chars "alter"; Helpers.chars "exec"; Helpers.chars "execute"]
            true 0), (Helpers.chars "create").
  split; [|split].
  - unfold Security.suspiciousPatterns. right. left.
  - simpl. do 5 right. left.
  - exists (Helpers.chars "/api/users?sort="), (Helpers.chars "Create"),
      (Helpers.chars "d").
    split; [reflexivity|]. by repeat constructor.
Defined.

(** X22: the event 'Suspicious Request Body' is logged only for a body that
    contains one of the texts; and when the URL of the request contains none
    of them, it is logged for every such body. *)
Theorem security_body_reported :
  ∀ (url method : list ascii) (body : option (list ascii)) (statusCode : Z),
    (Security.SuspiciousRequestBody ∈ Security.securityMonitor url method body statusCode →
     ∃ bodyStr, body = Some bodyStr ∧ Security.suspicious bodyStr) ∧
    (¬ Security.suspicious url →
     ∀ bodyStr, body = Some bodyStr → Security.suspicious bodyStr →
       Security.SuspiciousRequestBody ∈ Security.securityMonitor url method body statusCode).
Proof.
  intros url method body statusCode. split.
  - intros (b & -> & Hb)%body_event_reported. exists b. split; [done|].
    by eapply body_check_sound.
  - intros Hclean b -> Hb. apply body_event_reported. exists b. split; [done|].
    by apply body_check_clean_url.
Qed.

Lemma security_body_reported_witness :
  ∃ bodyStr,
    Some (Helpers.chars "{}<script>") = Some bodyStr ∧ Security.suspicious bodyStr.
Proof.
  apply (proj1 (security_body_reported (Helpers.chars "/api/users") (Helpers.chars "POST")
                  (Some (Helpers.chars "{}<script>")) 200)).
  apply (bool_decide_unpack _). by vm_compute.
Defined.

(** X23: a double quote is one of the texts, so for a request whose URL is
    not suspicious every body whose JSON text contains a double quote (every
    object with a key or a string in it) is logged as suspicious. *)
Theorem security_quoted_body_reported :
  ∀ (url method before after : list ascii) (statusCode : Z),
    ¬ Security.suspicious url →
    Security.SuspiciousRequestBody ∈
      Security.securityMonitor url method
        (Some (before ++ Helpers.double_quote :: after)) statusCode.
Proof.
  intros url method before after statusCode Hclean.
  apply body_event_reported. eexists. split; [done|].
  apply body_check_clean_url; [done|]. apply quote_is_suspicious.
Qed.

Lemma security_quoted_body_reported_witness :
  Security.SuspiciousRequestBody ∈
    Security.securityMonitor (Helpers.chars "/api/users") (Helpers.chars "POST")
      (Some (Helpers.chars "{" ++ Helpers.double_quote :: Helpers.chars "name")) 201.
Proof.
  apply (security_quoted_body_reported (Helpers.chars "/api/users") (Helpers.chars "POST")
           (Helpers.chars "{") (Helpers.chars "name") 201).
  intros Hs. apply url_check_iff in Hs. vm_compute in Hs. discriminate Hs.
Defined.

(** X24: the check of the body starts each expression where the check of the
    URL left it.  When the URL check has left the [lastIndex] of the quote
    expression (the fourth) beyond the length of the body, a body without
    script tags, SQL words and path traversal is not logged, whatever quotes
    it contains. *)
Theorem security_body_quotes_missed :
  ∀ (url method bodyStr : list ascii) (statusCode : Z) (quotes : Security.RegExp),
    (Security.some_test Security.suspiciousPatterns url).2 !! 3%nat = Some quotes →
    (length bodyStr < Security.lastIndex quotes)%nat →
    (∀ pattern lit,
        pattern ∈ take 3 Security.suspiciousPatterns →
        lit ∈ Security.alternatives pattern →
        ¬ Security.occurs (Security.ignoreCase pattern) lit bodyStr) →
    Security.SuspiciousRequestBody ∉
      Security.securityMonitor url method (Some bodyStr) statusCode.
Proof.
  intros url method bodyStr statusCode quotes Hq Hlen Hclean Hin.
  apply body_event_reported in Hin as (b & [= <-] & Hb).
  pose proof (some_test_same_pattern Security.suspiciousPatterns url) as Hshape.
  destruct ((Security.some_test Security.suspiciousPatterns url).2)
    as [|p1 [|p2 [|p3 [|p4 [|p5 rest]]]]] eqn:Hps;
    try (apply Forall2_length in Hshape; simpl in Hshape; lia).
  simpl in Hq. injection Hq as ->.
  apply Forall2_cons in Hshape as [[Ha1 Hi1] Hshape].
  apply Forall2_cons in Hshape as [[Ha2 Hi2] Hshape].
  apply Forall2_cons in Hshape as [[Ha3 Hi3] _].
  assert (Hmiss : ∀ p r, r ∈ take 3 Security.suspiciousPatterns →
                    Security.alternatives r = Security.alternatives p →
                    Security.ignoreCase r = Security.ignoreCase p →
                    (Security.test p bodyStr).1 = false).
  { intros p r Hr Ha Hi. destruct (Security.test p bodyStr).1 eqn:Ht; [|done].
    apply test_true_occurs in Ht as (lit & Hlit & Hocc).
    rewrite <- Ha in Hlit. rewrite <- Hi in Hocc. by destruct (Hclean r lit). }
  simpl in Hb.
  pose proof (Hmiss p1 _ ltac:(simpl; left) Ha1 Hi1) as H1.
  pose proof (Hmiss p2 _ ltac:(simpl; right; left) Ha2 Hi2) as H2.
  pose proof (Hmiss p3 _ ltac:(simpl; do 2 right; left) Ha3 Hi3) as H3.
  pose proof (stale_pattern_misses quotes bodyStr Hlen) as H4.
  destruct (Security.test p1 bodyStr) as [f1 q1]. simpl in H1. subst f1.
  destruct (Security.test p2 bodyStr) as [f2 q2]. simpl in H2. subst f2.
  destruct (Security.test p3 bodyStr) as [f3 q3]. simpl in H3. subst f3.
  destruct (Security.test quotes bodyStr) as [f4 q4]. simpl in H4. subst f4.
  done.
Qed.

Lemma security_body_quotes_missed_witness :
  Security.suspicious
    (Helpers.chars "{" ++ Helpers.double_quote :: Helpers.chars "a" ++
       Helpers.double_quote :: Helpers.chars ":1}") ∧
  Security.SuspiciousRequestBody ∉
    Security.securityMonitor (Helpers.chars "/search?q=it's") (Helpers.chars "POST")
      (Some (Helpers.chars "{" ++ Helpers.double_quote :: Helpers.chars "a" ++
               Helpers.double_quote :: Helpers.chars ":1}")) 200.
Proof.
  split; [apply quote_is_suspicious|].
  apply (security_body_quotes_missed (Helpers.chars "/search?q=it's")
           (Helpers.chars "POST") _ 200
           (Security.mkRegExp
              [Helpers.chars "%27"; Helpers.chars "%22"; Helpers.chars "'";
               [Helpers.double_quote]] false 13)).
  - vm_compute. reflexivity.
  - vm_compute. lia.
  - intros pattern lit Hp Hlit Hocc.
    assert (Hs : is_Some (Security.search (Security.ignoreCase pattern)
                            (Security.alternatives pattern)
                            (Helpers.chars "{" ++ Helpers.double_quote ::
                               Helpers.chars "a" ++ Helpers.double_quote ::
                               Helpers.chars ":1}")))
      by (apply search_is_Some; eauto).
    simpl in Hp.
    repeat (apply elem_of_cons in Hp as [->|Hp];
            [vm_compute in Hs; by destruct Hs|]).
    by apply elem_of_nil in Hp.
Defined.

(** X25: the event 'Failed Login Attempt' is logged exactly for a POST
    request whose URL contains [/auth/login] and whose response ends with
    status 401. *)
Theorem security_failed_login_reported :
  ∀ (url method : list ascii) (body : option (list ascii)) (statusCode : Z),
    Security.FailedLoginAttempt ∈ Security.securityMonitor url method body statusCode ↔
    Security.occurs false (Helpers.chars "/auth/login") url ∧
    method = Helpers.chars "POST" ∧
    statusCode = 401.
Proof.
  intros url method body statusCode.
  rewrite login_event_reported. by rewrite includes_occurs.
Qed.

Lemma security_failed_login_reported_witness :
  Security.FailedLoginAttempt ∈
    Security.securityMonitor (Helpers.chars "/api/auth/login") (Helpers.chars "POST")
      None 401.
Proof.
  apply (proj2 (security_failed_login_reported (Helpers.chars "/api/auth/login")
                  (Helpers.chars "POST") None 401)).
  split; [|done].
  exists (Helpers.chars "/api"), (Helpers.chars "/auth/login"), [].
  split; [reflexivity|]. by repeat constructor.
Defined.
